(** * The receipt OCR screen ([app/(tabs)/ocr.tsx])

    A shallow embedding of the screen component: its four state variables,
    the mount effect that checks the API key, the image picking handler
    [pickImage] and the transmission step [sendToOCR].

    The two handlers are asynchronous functions.  They are written once, as
    programs of a small free monad whose nodes are the synchronous actions
    (state setters, alerts, console output), the reads of the ambient
    configuration, and the suspension points ([await]).  Two interpreters
    give them meaning: [run] answers every suspension point from a fixed
    description of the outside world and returns the completion, the final
    state and the list of events in order; [step] is the event loop, where
    several handler invocations may be suspended at the same time. *)

From Stdlib Require Import ZArith List String Ascii Bool Lia DecimalString.
Import ListNotations.

Set Warnings "-register-all".

Local Open Scope list_scope.
Local Open Scope string_scope.

(** ** JavaScript values

    [res.json()] and [Constants.expoConfig] are typed [any]: the code reads
    them with property accesses, optional chaining, truthiness tests and
    template literals.  Numbers are restricted to the integers that print in
    plain decimal notation. *)

Inductive value : Type :=
| VUndefined
| VNull
| VBool (b : bool)
| VNum (z : Z)
| VStr (s : string)
| VArr (items : list value)
| VObj (fields : list (string * value)).

(** What a [throw] or a rejected promise carries: an [Error] instance with
    its [message], or any other value. *)
Inductive thrown : Type :=
| ErrorObject (message : string)
| NonError.

(** The engine raises a [TypeError] in two situations here.  The text of its
    message belongs to the engine, so it is asked from the environment. *)
Inductive type_error : Type :=
| ReadOfNullish (property : string)
| NotPrimitive.

Inductive result (A : Type) : Type :=
| Normal (a : A)
| Abrupt (t : type_error).
Arguments Normal {A} a.
Arguments Abrupt {A} t.

(** ToBoolean. *)
Definition truthy (v : value) : bool :=
  match v with
  | VUndefined | VNull => false
  | VBool b => b
  | VNum z => negb (Z.eqb z 0)
  | VStr s => negb (String.eqb s "")
  | VArr _ | VObj _ => true
  end.

Definition nullish (v : value) : bool :=
  match v with
  | VUndefined | VNull => true
  | _ => false
  end.

Fixpoint own (fields : list (string * value)) (name : string) : option value :=
  match fields with
  | [] => None
  | (k, v) :: rest => if String.eqb k name then Some v else own rest name
  end.

Inductive key : Type :=
| Named (name : string)
| Index (n : nat).

Definition decimal (z : Z) : string := NilZero.string_of_int (Z.to_int z).

Definition key_name (k : key) : string :=
  match k with
  | Named name => name
  | Index n => decimal (Z.of_nat n)
  end.

Definition from_option (o : option value) : value :=
  match o with
  | Some v => v
  | None => VUndefined
  end.

(** [v[k]] and [v.k].  The names this program reads ([extra], [apiKey],
    [responses], [fullTextAnnotation], [text], [error], [message]) are defined
    by no prototype, so a read that finds no own property is [undefined].  A
    string indexed by a number gives a one-character string. *)
Definition get (v : value) (k : key) : result value :=
  match v with
  | VUndefined | VNull => Abrupt (ReadOfNullish (key_name k))
  | VObj fields => Normal (from_option (own fields (key_name k)))
  | VArr items =>
      match k with
      | Index n => Normal (nth n items VUndefined)
      | Named _ => Normal VUndefined
      end
  | VStr s =>
      match k with
      | Index n =>
          Normal (match String.get n s with
                  | Some c => VStr (String c EmptyString)
                  | None => VUndefined
                  end)
      | Named _ => Normal VUndefined
      end
  | VBool _ | VNum _ => Normal VUndefined
  end.

(** [v?.k] and [v?.[k]]. *)
Definition get_opt (v : value) (k : key) : value :=
  match get v k with
  | Normal x => x
  | Abrupt _ => VUndefined
  end.

(** [a || b] *)
Definition or_else (a b : value) : value := if truthy a then a else b.

Definition has_own (fields : list (string * value)) (name : string) : bool :=
  match own fields name with
  | Some _ => true
  | None => false
  end.

(** ToString, as a template literal applies it.  An array is joined with
    commas, with [null] and [undefined] elements left empty.  A plain object
    gives [[object Object]]; one with an own [toString] property (which is
    never callable in parsed JSON) cannot be converted. *)
Fixpoint to_string (v : value) : result string :=
  match v with
  | VUndefined => Normal "undefined"
  | VNull => Normal "null"
  | VBool true => Normal "true"
  | VBool false => Normal "false"
  | VNum z => Normal (decimal z)
  | VStr s => Normal s
  | VArr items =>
      (fix join (l : list value) : result string :=
         match l with
         | [] => Normal ""
         | x :: rest =>
             match (if nullish x then Normal "" else to_string x) with
             | Abrupt t => Abrupt t
             | Normal sx =>
                 match rest with
                 | [] => Normal sx
                 | _ :: _ =>
                     match join rest with
                     | Abrupt t => Abrupt t
                     | Normal sr => Normal (sx ++ "," ++ sr)
                     end
                 end
             end
         end) items
  | VObj fields =>
      if has_own fields "toString" then Abrupt NotPrimitive
      else Normal "[object Object]"
  end.

(** ** [JSON.stringify]

    Strings are sequences of bytes holding UTF-8 text, so the characters that
    [JSON.stringify] escapes are the quotation mark, the backslash and the
    control characters below 32.  Properties are written in the order of the
    list; a property whose value is [undefined] is left out and an
    [undefined] array element is written [null]. *)

Definition dquote : string := String "034"%char EmptyString.

Definition hex_digit (n : nat) : ascii :=
  match String.get n "0123456789abcdef" with
  | Some c => c
  | None => "0"%char
  end.

Definition escape_char (c : ascii) : string :=
  let n := nat_of_ascii c in
  if Nat.eqb n 34 then "\" ++ dquote
  else if Nat.eqb n 92 then "\\"
  else if Nat.eqb n 8 then "\b"
  else if Nat.eqb n 9 then "\t"
  else if Nat.eqb n 10 then "\n"
  else if Nat.eqb n 12 then "\f"
  else if Nat.eqb n 13 then "\r"
  else if Nat.ltb n 32
       then "\u00" ++ String (hex_digit (n / 16)) (String (hex_digit (n mod 16)) EmptyString)
  else String c EmptyString.

Fixpoint escape (s : string) : string :=
  match s with
  | EmptyString => EmptyString
  | String c rest => escape_char c ++ escape rest
  end.

Definition quote (s : string) : string := dquote ++ escape s ++ dquote.

(** A character that [JSON.stringify] writes as it is. *)
Definition plain_char (c : ascii) : bool :=
  let n := nat_of_ascii c in
  negb (Nat.ltb n 32) && negb (Nat.eqb n 34) && negb (Nat.eqb n 92).

Fixpoint plain (s : string) : bool :=
  match s with
  | EmptyString => true
  | String c rest => plain_char c && plain rest
  end.

Fixpoint JSON_stringify (v : value) : option string :=
  match v with
  | VUndefined => None
  | VNull => Some "null"
  | VBool true => Some "true"
  | VBool false => Some "false"
  | VNum z => Some (decimal z)
  | VStr s => Some (quote s)
  | VArr items =>
      Some ("[" ++ String.concat ","
              ((fix each (l : list value) : list string :=
                  match l with
                  | [] => []
                  | x :: rest =>
                      match JSON_stringify x with
                      | Some t => t :: each rest
                      | None => "null" :: each rest
                      end
                  end) items) ++ "]")
  | VObj fields =>
      Some ("{" ++ String.concat ","
              ((fix each (l : list (string * value)) : list string :=
                  match l with
                  | [] => []
                  | (k, x) :: rest =>
                      match JSON_stringify x with
                      | Some t => (quote k ++ ":" ++ t) :: each rest
                      | None => each rest
                      end
                  end) fields) ++ "}")
  end.

(** ** The platform interfaces *)

(** [ImagePicker.requestMediaLibraryPermissionsAsync()] *)
Record permission_response : Type := { granted : bool }.

(** One entry of [result.assets]; [base64] is [string | null | undefined]. *)
Record asset : Type := { uri : string; base64 : option string }.

(** [ImagePickerResult]: [{ canceled: true, assets: null }] or
    [{ canceled: false, assets: [...] }]. *)
Inductive picker_result : Type :=
| Canceled
| Selected (assets : list asset).

Record picker_options : Type :=
  { want_base64 : bool; allowsEditing : bool; quality : Z }.

(** The arguments of [fetch]. *)
Record request : Type :=
  { url : string;
    method : string;
    headers : list (string * string);
    body : option string }.

(** The fields of a [Response] that the code reads. *)
Record response : Type := { ok : bool; status : Z; statusText : string }.

(** How a promise settles. *)
Inductive settled (X : Type) : Type :=
| Resolved (x : X)
| Rejected (e : thrown).
Arguments Resolved {X} x.
Arguments Rejected {X} e.

(** The asynchronous calls, indexed by what they resolve to. *)
Inductive call : Type -> Type :=
| RequestMediaLibraryPermissions : call permission_response
| LaunchImageLibrary (options : picker_options) : call picker_result
| Fetch (r : request) : call response
| Json (res : response) : call value.

(** ** The component state *)

Record screen : Type :=
  { imageUri : option string;
    ocrText : value;
    isLoading : bool;
    apiConfigured : bool }.

(** The [useState] initial values. *)
Definition initial : screen :=
  {| imageUri := None; ocrText := VStr ""; isLoading := false; apiConfigured := false |}.

(** The synchronous side effects. *)
Inductive action : Type :=
| SetImageUri (u : string)
| SetOcrText (v : value)
| SetIsLoading (b : bool)
| SetApiConfigured (b : bool)
| Alert (title message : string)
| ConsoleLog (s : string)
| ConsoleWarn (s : string)
| ConsoleError (label : string) (e : thrown).

Definition apply (a : action) (s : screen) : screen :=
  match a with
  | SetImageUri u =>
      {| imageUri := Some u; ocrText := ocrText s;
         isLoading := isLoading s; apiConfigured := apiConfigured s |}
  | SetOcrText v =>
      {| imageUri := imageUri s; ocrText := v;
         isLoading := isLoading s; apiConfigured := apiConfigured s |}
  | SetIsLoading b =>
      {| imageUri := imageUri s; ocrText := ocrText s;
         isLoading := b; apiConfigured := apiConfigured s |}
  | SetApiConfigured b =>
      {| imageUri := imageUri s; ocrText := ocrText s;
         isLoading := isLoading s; apiConfigured := b |}
  | Alert _ _ | ConsoleLog _ | ConsoleWarn _ | ConsoleError _ _ => s
  end.

(** ** Programs *)

Inductive prog (A : Type) : Type :=
| Ret (a : A)
| Throw (e : thrown)
| Do (a : action) (k : prog A)
| ReadExpoConfig (k : value -> prog A)
| EngineMessage (t : type_error) (k : string -> prog A)
| Await {X : Type} (c : call X) (k : settled X -> prog A).
Arguments Ret {A} a.
Arguments Throw {A} e.
Arguments Do {A} a k.
Arguments ReadExpoConfig {A} k.
Arguments EngineMessage {A} t k.
Arguments Await {A X} c k.

Fixpoint bind {A B : Type} (p : prog A) (f : A -> prog B) : prog B :=
  match p with
  | Ret a => f a
  | Throw e => Throw e
  | Do a k => Do a (bind k f)
  | ReadExpoConfig k => ReadExpoConfig (fun v => bind (k v) f)
  | EngineMessage t k => EngineMessage t (fun m => bind (k m) f)
  | Await c k => Await c (fun r => bind (k r) f)
  end.

Declare Scope prog_scope.
Delimit Scope prog_scope with prog.
Bind Scope prog_scope with prog.
Notation "x <- p ;; q" := (bind p (fun x => q))
  (at level 61, p at next level, right associativity) : prog_scope.
Notation "p ;; q" := (bind p (fun _ => q))
  (at level 61, right associativity) : prog_scope.
Local Open Scope prog_scope.

(** [try { p } catch (error) { handler error }] *)
Fixpoint try_catch {A : Type} (p : prog A) (handler : thrown -> prog A) : prog A :=
  match p with
  | Ret a => Ret a
  | Throw e => handler e
  | Do a k => Do a (try_catch k handler)
  | ReadExpoConfig k => ReadExpoConfig (fun v => try_catch (k v) handler)
  | EngineMessage t k => EngineMessage t (fun m => try_catch (k m) handler)
  | Await c k => Await c (fun r => try_catch (k r) handler)
  end.

(** [try { p } finally { cleanup }] *)
Fixpoint finally {A : Type} (p : prog A) (cleanup : prog unit) : prog A :=
  match p with
  | Ret a => cleanup ;; Ret a
  | Throw e => cleanup ;; Throw e
  | Do a k => Do a (finally k cleanup)
  | ReadExpoConfig k => ReadExpoConfig (fun v => finally (k v) cleanup)
  | EngineMessage t k => EngineMessage t (fun m => finally (k m) cleanup)
  | Await c k => Await c (fun r => finally (k r) cleanup)
  end.

Definition perform (a : action) : prog unit := Do a (Ret tt).

(** [await c]: a rejection is thrown at the suspension point. *)
Definition await {X : Type} (c : call X) : prog X :=
  Await c (fun r => match r with
                    | Resolved x => Ret x
                    | Rejected e => Throw e
                    end).

(** [await promise.catch(() => fallback)] *)
Definition await_or {X : Type} (c : call X) (fallback : X) : prog X :=
  Await c (fun r => match r with
                    | Resolved x => Ret x
                    | Rejected _ => Ret fallback
                    end).

(** An operation of the engine that may raise a [TypeError]. *)
Definition lift {A : Type} (r : result A) : prog A :=
  match r with
  | Normal a => Ret a
  | Abrupt t => EngineMessage t (fun m => Throw (ErrorObject m))
  end.

(** A call of an [async] function whose promise is dropped: nothing it throws
    reaches the caller.  The caller goes on when the callee first suspends;
    both callers below have nothing left to do at that point, so the callee
    is run in line. *)
Definition detached (p : prog unit) : prog unit :=
  try_catch p (fun _ => Ret tt).

(** ** The component *)

Definition API_CONFIG_endpoint : string :=
  "https://vision.googleapis.com/v1/images:annotate".

(** [Constants.expoConfig?.extra?.apiKey] *)
Definition apiKey_of (config : value) : value :=
  get_opt (get_opt config (Named "extra")) (Named "apiKey").

Definition read_apiKey : prog value :=
  ReadExpoConfig (fun config => Ret (apiKey_of config)).

(** The effect run once when the component is mounted. *)
Definition mountEffect : prog unit :=
  apiKey <- read_apiKey ;;
  if truthy apiKey then
    perform (ConsoleLog "API密钥已配置") ;;
    perform (SetApiConfigured true)
  else
    perform (ConsoleWarn "API密钥未配置，OCR功能将不可用").

(** The request body before serialisation. *)
Definition ocr_body (base64 : string) : value :=
  VObj [("requests",
         VArr [VObj [("image", VObj [("content", VStr base64)]);
                     ("features", VArr [VObj [("type", VStr "TEXT_DETECTION")]])]])].

Definition ocr_request (key_text base64 : string) : request :=
  {| url := API_CONFIG_endpoint ++ "?key=" ++ key_text;
     method := "POST";
     headers := [("Content-Type", "application/json")];
     body := JSON_stringify (ocr_body base64) |}.

(** The text of the request body around the encoded image. *)
Definition body_text (content : string) : string :=
  "{" ++ quote "requests" ++ ":[{" ++ quote "image" ++ ":{" ++ quote "content" ++ ":"
      ++ content ++ "}," ++ quote "features" ++ ":[{" ++ quote "type" ++ ":"
      ++ quote "TEXT_DETECTION" ++ "}]}]}".

Definition no_text_placeholder : string := "未检测到文本，请尝试其他图片。".

(** [data.responses?.[0]?.fullTextAnnotation?.text] *)
Definition read_text (data : value) : result value :=
  match get data (Named "responses") with
  | Abrupt t => Abrupt t
  | Normal responses =>
      Normal (get_opt (get_opt (get_opt responses (Index 0))
                               (Named "fullTextAnnotation"))
                      (Named "text"))
  end.

(** [errorData.error?.message] *)
Definition read_error_message (errorData : value) : result value :=
  match get errorData (Named "error") with
  | Abrupt t => Abrupt t
  | Normal error => Normal (get_opt error (Named "message"))
  end.

(** Response interpretation: what the [try] block of [sendToOCR] does with
    the reply of [fetch]. *)
Definition interpret (res : response) : prog unit :=
  if negb (ok res) then
    errorData <- await_or (Json res) (VObj []) ;;
    message <- lift (read_error_message errorData) ;;
    detail <- lift (to_string (or_else message (VStr (statusText res)))) ;;
    Throw (ErrorObject ("API错误 (" ++ decimal (status res) ++ "): " ++ detail))
  else
    data <- await (Json res) ;;
    text <- lift (read_text data) ;;
    if negb (truthy text) then perform (SetOcrText (VStr no_text_placeholder))
    else perform (SetOcrText text).

(** The [try] block of [sendToOCR]. *)
Definition transmit (base64 : string) : prog unit :=
  apiKey <- read_apiKey ;;
  if negb (truthy apiKey) then Throw (ErrorObject "API密钥未配置")
  else
    perform (ConsoleLog "正在发送OCR请求...") ;;
    key_text <- lift (to_string apiKey) ;;
    res <- await (Fetch (ocr_request key_text base64)) ;;
    interpret res.

(** [error instanceof Error ? error.message : '未知错误'] *)
Definition describe (error : thrown) : string :=
  match error with
  | ErrorObject message => message
  | NonError => "未知错误"
  end.

(** The [catch] block of [sendToOCR]. *)
Definition report (error : thrown) : prog unit :=
  perform (ConsoleError "OCR处理错误:" error) ;;
  perform (SetOcrText (VStr ("识别失败: " ++ describe error))) ;;
  perform (Alert "错误" ("OCR处理时发生错误: " ++ describe error)).

Definition sendToOCR (base64 : string) : prog unit :=
  perform (SetIsLoading true) ;;
  finally (try_catch (transmit base64) report) (perform (SetIsLoading false)).

(** The options passed to [launchImageLibraryAsync]. *)
Definition pick_options : picker_options :=
  {| want_base64 := true; allowsEditing := true; quality := 1 |}.

Definition picker_call : call picker_result := LaunchImageLibrary pick_options.

(** [asset.base64] as a condition and as an argument. *)
Definition encoded (a : asset) : option string :=
  match base64 a with
  | Some data => if String.eqb data "" then None else Some data
  | None => None
  end.

(** [pickImage], with the [apiConfigured] its closure captured at the render
    that created it. *)
Definition pickImage (configured : bool) : prog unit :=
  try_catch
    (if negb configured then
       perform (Alert "配置错误" "API密钥未配置，请先设置app.config.js和.env文件")
     else
       permission <- await RequestMediaLibraryPermissions ;;
       if negb (granted permission) then
         perform (Alert "权限错误" "需要相册访问权限")
       else
         result <- await picker_call ;;
         match result with
         | Canceled => Ret tt
         | Selected assets =>
             asset <- match assets with
                      | first :: _ => Ret first
                      | [] => lift (Abrupt (ReadOfNullish "uri"))
                      end ;;
             perform (SetImageUri (uri asset)) ;;
             match encoded asset with
             | Some data => detached (sendToOCR data)
             | None => perform (Alert "错误" "无法获取图片数据")
             end
         end)
    (fun error =>
       perform (ConsoleError "图片选择错误:" error) ;;
       perform (Alert "错误" "选择图片时发生错误")).

(** What the render function computes for the button. *)
Definition button_disabled (s : screen) : bool :=
  isLoading s || negb (apiConfigured s).

(** The button's [onPress] at a render of state [s]. *)
Definition onPress (s : screen) : prog unit := pickImage (apiConfigured s).

(** ** Running a handler to completion *)

Inductive event : Type :=
| Did (a : action)
| ReadConfig
| Called {X : Type} (c : call X).

(** What the handlers read synchronously: the static configuration and the
    wording of the engine's errors. *)
Record host : Type :=
  { expoConfig : value;
    typeErrorMessage : type_error -> string }.

(** Everything outside the component: the host, and how each asynchronous
    call settles. *)
Record world : Type :=
  { ambient : host;
    permission : settled permission_response;
    picker : picker_options -> settled picker_result;
    fetch : request -> settled response;
    json : response -> settled value }.

Definition answer (w : world) {X : Type} (c : call X) : settled X :=
  match c in call T return settled T with
  | RequestMediaLibraryPermissions => permission w
  | LaunchImageLibrary options => picker w options
  | Fetch r => fetch w r
  | Json res => json w res
  end.

Inductive completion (A : Type) : Type :=
| Returned (a : A)
| Threw (e : thrown).
Arguments Returned {A} a.
Arguments Threw {A} e.

Record outcome (A : Type) : Type :=
  { completed : completion A; final : screen; events : list event }.
Arguments completed {A} o.
Arguments final {A} o.
Arguments events {A} o.

Definition emit {A : Type} (e : event) (o : outcome A) : outcome A :=
  {| completed := completed o; final := final o; events := e :: events o |}.

Fixpoint run {A : Type} (w : world) (p : prog A) (s : screen) : outcome A :=
  match p with
  | Ret a => {| completed := Returned a; final := s; events := [] |}
  | Throw e => {| completed := Threw e; final := s; events := [] |}
  | Do a k => emit (Did a) (run w k (apply a s))
  | ReadExpoConfig k => emit ReadConfig (run w (k (expoConfig (ambient w))) s)
  | EngineMessage t k => run w (k (typeErrorMessage (ambient w) t)) s
  | Await c k => emit (Called c) (run w (k (answer w c)) s)
  end.

Definition prepend {A : Type} (before : list event) (o : outcome A) : outcome A :=
  {| completed := completed o; final := final o; events := before ++ events o |}.

(** The mount effect followed by one press of the button. *)
Definition session (w : world) : outcome unit :=
  let mounted := run w mountEffect initial in
  prepend (events mounted) (run w (onPress (final mounted)) (final mounted)).

(** ** What is observed of a run *)

Definition is_config_read (e : event) : bool :=
  match e with
  | ReadConfig => true
  | _ => false
  end.

Definition config_reads (l : list event) : nat :=
  List.length (filter is_config_read l).

Definition is_loading_event (e : event) : bool :=
  match e with
  | Did (SetIsLoading _) => true
  | _ => false
  end.

Definition is_alert (e : event) : bool :=
  match e with
  | Did (Alert _ _) => true
  | _ => false
  end.

Definition is_result_update (e : event) : bool :=
  match e with
  | Did (SetOcrText _) => true
  | _ => false
  end.

Definition is_flag_update (e : event) : bool :=
  match e with
  | Did (SetApiConfigured _) => true
  | _ => false
  end.

(** The request carried by an event. *)
Definition requested (e : event) : option request :=
  match e with
  | Called (Fetch r) => Some r
  | _ => None
  end.

(** Events other than [setImageUri] and [setApiConfigured]. *)
Definition pipeline_event (e : event) : Prop :=
  match e with
  | Did (SetImageUri _) | Did (SetApiConfigured _) => False
  | _ => True
  end.

(** Every event a program can emit, whatever the answers, satisfies [P]. *)
Fixpoint only {A : Type} (P : event -> Prop) (p : prog A) : Prop :=
  match p with
  | Ret _ | Throw _ => True
  | Do a k => P (Did a) /\ only P k
  | ReadExpoConfig k => P ReadConfig /\ forall v, only P (k v)
  | EngineMessage _ k => forall m, only P (k m)
  | Await c k => P (Called c) /\ forall r, only P (k r)
  end.

(** The failure described by [m] was shown both as result text and in an
    alert. *)
Definition surfaced (o : outcome unit) (m : string) : Prop :=
  completed o = Returned tt /\
  ocrText (final o) = VStr ("识别失败: " ++ m) /\
  In (Did (SetOcrText (VStr ("识别失败: " ++ m)))) (events o) /\
  In (Did (Alert "错误" ("OCR处理时发生错误: " ++ m))) (events o).

(** The three calls and the action that [pickImage] starts with when some
    asset was selected. *)
Definition selection_prefix (a : asset) : list event :=
  [Called RequestMediaLibraryPermissions; Called picker_call; Did (SetImageUri (uri a))].

(** ** The event loop

    A handler runs without interruption up to its next [await]; there it is
    parked with the call it waits for.  Between two such stretches the user may
    press the button again, if it is enabled, and any parked invocation may be
    resumed with the way its call settled. *)

Record task : Type :=
  Suspended { awaited : Type;
              pending : call awaited;
              resume : settled awaited -> prog unit }.
Arguments Suspended {awaited} pending resume.

Fixpoint advance (h : host) (p : prog unit) (s : screen) : screen * option task :=
  match p with
  | Ret _ | Throw _ => (s, None)
  | Do a k => advance h k (apply a s)
  | ReadExpoConfig k => advance h (k (expoConfig h)) s
  | EngineMessage t k => advance h (k (typeErrorMessage h t)) s
  | Await c k => (s, Some (Suspended c k))
  end.

Record loop : Type := { ui : screen; tasks : list task }.

Definition parked (t : option task) : list task :=
  match t with
  | Some x => [x]
  | None => []
  end.

(** A transmit-and-interpret operation is in flight: an invocation waits for
    the reply of [fetch] or for its body. *)
Definition transmitting {X : Type} (c : call X) : bool :=
  match c with
  | Fetch _ | Json _ => true
  | _ => false
  end.

Definition in_flight (t : task) : bool := transmitting (pending t).

(** Some invocation waits for the permission prompt or for the picker. *)
Definition behind_modal (l : loop) : bool :=
  existsb (fun t => negb (in_flight t)) (tasks l).

Definition mounted (h : host) : loop :=
  {| ui := fst (advance h mountEffect initial); tasks := [] |}.

Section EventLoop.

(** When the user is able to reach the button at all. *)
Variable may_press : loop -> Prop.
Variable h : host.

Inductive step : loop -> loop -> Prop :=
| step_press (l : loop) (s' : screen) (t : option task) :
    may_press l ->
    button_disabled (ui l) = false ->
    advance h (onPress (ui l)) (ui l) = (s', t) ->
    step l {| ui := s'; tasks := tasks l ++ parked t |}
| step_settle (l : loop) (before after : list task) (X : Type) (c : call X)
    (k : settled X -> prog unit) (r : settled X) (s' : screen) (t : option task) :
    tasks l = (before ++ Suspended c k :: after)%list ->
    advance h (k r) (ui l) = (s', t) ->
    step l {| ui := s'; tasks := before ++ parked t ++ after |}.

Inductive reachable : loop -> Prop :=
| reach_mounted : reachable (mounted h)
| reach_step (l l' : loop) : reachable l -> step l l' -> reachable l'.

End EventLoop.

(** The button is available whenever it is rendered enabled. *)
Definition always (l : loop) : Prop := True.

(** The permission prompt and the picker cover the screen. *)
Definition modal (l : loop) : Prop := behind_modal l = false.

(** The loading invariant of section 3 of the specification. *)
Definition loading_invariant (l : loop) : Prop :=
  (isLoading (ui l) = true <-> exists t, In t (tasks l) /\ in_flight t = true) /\
  List.length (filter in_flight (tasks l)) <= 1.

(** What is left of an invocation sets [isLoading] to [false] before it ends,
    and waits for the service exactly while [isLoading] is [true]. *)
Fixpoint closes {A : Type} (loading : bool) (p : prog A) : Prop :=
  match p with
  | Ret _ | Throw _ => loading = false
  | Do a k =>
      closes (match a with SetIsLoading b => b | _ => loading end) k
  | ReadExpoConfig k => forall v, closes loading (k v)
  | EngineMessage _ k => forall m, closes loading (k m)
  | Await c k => transmitting c = loading /\ forall r, closes loading (k r)
  end.

Definition task_ok (loading : bool) (t : task) : Prop :=
  in_flight t = loading /\ forall r, closes loading (resume t r).

(** What the proof of the invariant carries along: nothing is suspended and
    [isLoading] is false, or one invocation is suspended and will close. *)
Definition settled_or_single (l : loop) : Prop :=
  (tasks l = [] /\ isLoading (ui l) = false) \/
  (exists t, tasks l = [t] /\ task_ok (isLoading (ui l)) t).

(** ** What the screen shows

    The children of the [ScrollView] that the component returns, in order:
    the element tree as the function builds it, before React processes it.
    [cond && <X/>] gives [<X/>] when [cond] is truthy and the value of [cond]
    otherwise; [false] and [null] are left out, an empty string stays an empty
    string.  [ResultText v] is the result area with [v] as the child of its
    [Text], whatever [v] is: what React makes of a child that is not a string
    is not part of this definition. *)

Inductive element : Type :=
| WarningBanner
| TriggerButton (disabled : bool)
| LoadingIndicator
| Picture (source : string)
| BareString (s : string)
| ResultText (text : value).

(** [v !== ''] *)
Definition differs_from_empty (v : value) : bool :=
  match v with
  | VStr s => negb (String.eqb s "")
  | _ => true
  end.

Definition render (s : screen) : list element :=
  (if negb (apiConfigured s) then [WarningBanner] else []) ++
  [TriggerButton (button_disabled s)] ++
  (if isLoading s then [LoadingIndicator] else []) ++
  match imageUri s with
  | None => []
  | Some source => if String.eqb source "" then [BareString source] else [Picture source]
  end ++
  (if differs_from_empty (ocrText s) then [ResultText (ocrText s)] else []).

(** ** Further observations *)

(** The options of the picker launched by an event. *)
Definition launched (e : event) : option picker_options :=
  match e with
  | Called (LaunchImageLibrary options) => Some options
  | _ => None
  end.

Definition is_fetch (e : event) : bool :=
  match requested e with
  | Some _ => true
  | None => false
  end.

(** On no path does a program issue more than [n] requests. *)
Fixpoint requests_at_most {A : Type} (n : nat) (p : prog A) : Prop :=
  match p with
  | Ret _ | Throw _ => True
  | Do _ k => requests_at_most n k
  | ReadExpoConfig k => forall v, requests_at_most n (k v)
  | EngineMessage _ k => forall m, requests_at_most n (k m)
  | Await c k =>
      match requested (Called c), n with
      | None, _ => forall r, requests_at_most n (k r)
      | Some _, S m => forall r, requests_at_most m (k r)
      | Some _, O => False
      end
  end.

(** The invariant of the event loop without any assumption on the user:
    every suspended invocation will close, and [isLoading] is true only while
    one of them is in flight. *)
Definition all_tasks_close (l : loop) : Prop :=
  (forall t, In t (tasks l) -> task_ok (in_flight t) t) /\
  (isLoading (ui l) = true -> exists t, In t (tasks l) /\ in_flight t = true).

(** The invariant for the flag: it has the value computed at mount and no
    suspended invocation will change it. *)
Definition flag_is_fixed (h : host) (l : loop) : Prop :=
  apiConfigured (ui l) = truthy (apiKey_of (expoConfig h)) /\
  forall t, In t (tasks l) ->
            forall r, only (fun e => is_flag_update e = false) (resume t r).

(** ** Sample surroundings, for the examples *)

Definition sample_host (config : value) : host :=
  {| expoConfig := config;
     typeErrorMessage := fun t =>
       match t with
       | ReadOfNullish property => "Cannot read property '" ++ property ++ "' of null"
       | NotPrimitive => "Cannot convert object to primitive value"
       end |}.

Definition configured_host : host :=
  sample_host (VObj [("extra", VObj [("apiKey", VStr "K")])]).

Definition sample_world (h : host) (p : settled permission_response)
    (choice : settled picker_result) (reply : settled response)
    (parsed : settled value) : world :=
  {| ambient := h;
     permission := p;
     picker := fun _ => choice;
     fetch := fun _ => reply;
     json := fun _ => parsed |}.

Definition allowed : settled permission_response := Resolved {| granted := true |}.
Definition denied : settled permission_response := Resolved {| granted := false |}.

Definition receipt : asset := {| uri := "file:///receipt.jpg"; base64 := Some "QUJD" |}.
Definition bare_receipt : asset := {| uri := "file:///receipt.jpg"; base64 := None |}.

Definition ready : screen :=
  {| imageUri := None; ocrText := VStr ""; isLoading := false; apiConfigured := true |}.

(** A screen that already shows an earlier picture and its text. *)
Definition showing : screen :=
  {| imageUri := Some "file:///old.jpg"; ocrText := VStr "TOTAL 12";
     isLoading := false; apiConfigured := true |}.

(** Replies of the service, for the examples. *)
Definition bad_request : response := {| ok := false; status := 400; statusText := "Bad Request" |}.
Definition server_error : response :=
  {| ok := false; status := 500; statusText := "Internal Server Error" |}.
Definition success : response := {| ok := true; status := 200; statusText := "OK" |}.

Definition bad_image : value := VObj [("error", VObj [("message", VStr "Bad image")])].

Definition annotated (text : string) : value :=
  VObj [("responses", VArr [VObj [("fullTextAnnotation", VObj [("text", VStr text)])]])].

(** A device with a credential on which the user picks [receipt] and the service
    answers [reply] with a body that parses as [parsed]. *)
Definition service (reply : response) (parsed : settled value) : world :=
  sample_world configured_host allowed (Resolved (Selected [receipt])) (Resolved reply) parsed.

(** A host without configuration. *)
Definition bare_host : host := sample_host VNull.

(** The event loop while the request for [receipt] is outstanding. *)
Definition sending : loop :=
  {| ui := fst (advance configured_host (sendToOCR "QUJD") ready);
     tasks := parked (snd (advance configured_host (sendToOCR "QUJD") ready)) |}.

(** * Properties *)

(** ** How [run] goes through the control operators *)

Lemma prepend_nil {A : Type} (o : outcome A) : prepend [] o = o.
Proof. destruct o; reflexivity. Qed.

Lemma run_bind {A B : Type} (w : world) (p : prog A) (f : A -> prog B) (s : screen) :
  run w (bind p f) s =
  match completed (run w p s) with
  | Returned a => prepend (events (run w p s)) (run w (f a) (final (run w p s)))
  | Threw e =>
      {| completed := Threw e; final := final (run w p s); events := events (run w p s) |}
  end.
Proof.
  revert s; induction p as [a|e|a k IH|k IH|t k IH|X c k IH]; intro s; cbn.
  - now rewrite prepend_nil.
  - reflexivity.
  - rewrite IH; now destruct (completed (run w k (apply a s))).
  - rewrite IH; now destruct (completed (run w (k (expoConfig (ambient w))) s)).
  - apply IH.
  - rewrite IH; now destruct (completed (run w (k (answer w c)) s)).
Qed.

Lemma run_try_catch {A : Type} (w : world) (p : prog A) (handler : thrown -> prog A)
    (s : screen) :
  run w (try_catch p handler) s =
  match completed (run w p s) with
  | Returned a =>
      {| completed := Returned a; final := final (run w p s); events := events (run w p s) |}
  | Threw e => prepend (events (run w p s)) (run w (handler e) (final (run w p s)))
  end.
Proof.
  revert s; induction p as [a|e|a k IH|k IH|t k IH|X c k IH]; intro s; cbn.
  - reflexivity.
  - now rewrite prepend_nil.
  - rewrite IH; now destruct (completed (run w k (apply a s))).
  - rewrite IH; now destruct (completed (run w (k (expoConfig (ambient w))) s)).
  - apply IH.
  - rewrite IH; now destruct (completed (run w (k (answer w c)) s)).
Qed.

(** The cleanup of [finally] used here is a single action: it cannot throw. *)
Lemma run_finally_perform {A : Type} (w : world) (p : prog A) (a : action) (s : screen) :
  run w (finally p (perform a)) s =
  {| completed := completed (run w p s);
     final := apply a (final (run w p s));
     events := events (run w p s) ++ [Did a] |}.
Proof.
  revert s; induction p as [x|e|b k IH|k IH|t k IH|X c k IH]; intro s; cbn;
    try reflexivity; now rewrite IH.
Qed.

Lemma only_run {A : Type} (P : event -> Prop) (w : world) (p : prog A) (s : screen) :
  only P p -> Forall P (events (run w p s)).
Proof.
  revert s; induction p as [x|e|b k IH|k IH|t k IH|X c k IH]; intros s Hp; cbn in *.
  - constructor.
  - constructor.
  - destruct Hp; constructor; auto.
  - destruct Hp; constructor; auto.
  - auto.
  - destruct Hp; constructor; auto.
Qed.

Lemma only_bind {A B : Type} (P : event -> Prop) (p : prog A) (f : A -> prog B) :
  only P p -> (forall a, only P (f a)) -> only P (bind p f).
Proof.
  induction p as [x|e|b k IH|k IH|t k IH|X c k IH]; cbn; intros Hp Hf;
    try tauto; try (destruct Hp; split; auto); auto.
Qed.

Lemma only_try_catch {A : Type} (P : event -> Prop) (p : prog A) (handler : thrown -> prog A) :
  only P p -> (forall e, only P (handler e)) -> only P (try_catch p handler).
Proof.
  induction p as [x|e|b k IH|k IH|t k IH|X c k IH]; cbn; intros Hp Hf;
    try tauto; try (destruct Hp; split; auto); auto.
Qed.

Lemma only_finally {A : Type} (P : event -> Prop) (p : prog A) (cleanup : prog unit) :
  only P p -> only P cleanup -> only P (finally p cleanup).
Proof.
  intros Hp Hc.
  induction p as [x|e|b k IH|k IH|t k IH|X c k IH]; cbn in *;
    try (apply only_bind; [exact Hc|intro; exact I]);
    try (destruct Hp; split; auto); auto.
Qed.

Lemma only_lift {A : Type} (P : event -> Prop) (r : result A) : only P (lift r).
Proof. destruct r; cbn; auto. Qed.

Lemma only_await {X : Type} (P : event -> Prop) (c : call X) :
  P (Called c) -> only P (await c).
Proof. intro H; cbn; split; [exact H|]; intros [x|e]; exact I. Qed.

Lemma only_await_or {X : Type} (P : event -> Prop) (c : call X) (fallback : X) :
  P (Called c) -> only P (await_or c fallback).
Proof. intro H; cbn; split; [exact H|]; intros [x|e]; exact I. Qed.

Lemma only_perform (P : event -> Prop) (a : action) : P (Did a) -> only P (perform a).
Proof. intro H; cbn; auto. Qed.

Ltac only_steps :=
  repeat first
    [ apply only_bind; [|intro]
    | apply only_try_catch; [|intro]
    | apply only_lift
    | apply only_await
    | apply only_await_or
    | apply only_perform
    | match goal with
      | |- only _ (if ?b then _ else _) => destruct b
      | |- only _ (match ?x with _ => _ end) => destruct x
      end
    | exact I
    | split; [|intro] ].

(** The [try] and [catch] blocks of [sendToOCR] never touch [isLoading]. *)
Lemma transmit_leaves_loading (base64 : string) :
  only (fun e => is_loading_event e = false) (try_catch (transmit base64) report).
Proof.
  unfold transmit, interpret, report, read_apiKey.
  only_steps; cbn; try reflexivity; only_steps; reflexivity.
Qed.

(** The [catch] block always completes. *)
Lemma run_report (w : world) (error : thrown) (s : screen) :
  run w (report error) s =
  {| completed := Returned tt;
     final := apply (SetOcrText (VStr ("识别失败: " ++ describe error))) s;
     events := [Did (ConsoleError "OCR处理错误:" error);
                Did (SetOcrText (VStr ("识别失败: " ++ describe error)));
                Did (Alert "错误" ("OCR处理时发生错误: " ++ describe error))] |}.
Proof. reflexivity. Qed.

(** [sendToOCR] in terms of the run of its [try] block. *)
Lemma run_sendToOCR (w : world) (base64 : string) (s : screen) :
  let body := run w (transmit base64) (apply (SetIsLoading true) s) in
  run w (sendToOCR base64) s =
  match completed body with
  | Returned _ =>
      {| completed := Returned tt;
         final := apply (SetIsLoading false) (final body);
         events := Did (SetIsLoading true) :: events body ++ [Did (SetIsLoading false)] |}
  | Threw error =>
      {| completed := Returned tt;
         final := apply (SetIsLoading false)
                    (apply (SetOcrText (VStr ("识别失败: " ++ describe error))) (final body));
         events := Did (SetIsLoading true) ::
                   (events body ++
                    [Did (ConsoleError "OCR处理错误:" error);
                     Did (SetOcrText (VStr ("识别失败: " ++ describe error)));
                     Did (Alert "错误" ("OCR处理时发生错误: " ++ describe error))]) ++
                   [Did (SetIsLoading false)] |}
  end.
Proof.
  intro body; unfold sendToOCR.
  change (run w (perform (SetIsLoading true) ;;
                 finally (try_catch (transmit base64) report) (perform (SetIsLoading false))) s)
    with (emit (Did (SetIsLoading true))
            (run w (finally (try_catch (transmit base64) report) (perform (SetIsLoading false)))
               (apply (SetIsLoading true) s))).
  rewrite run_finally_perform, run_try_catch. fold body.
  destruct (completed body) as [[]|error]; [reflexivity|].
  rewrite run_report; reflexivity.
Qed.

(** C1.  Every run of [sendToOCR] returns normally with [isLoading] false.
    Its first event sets [isLoading] to true, its last event sets it to
    false, nothing in between touches [isLoading], and the request, when one
    is issued, lies in between: so on every exit path of the [try] block,
    normal or thrown. *)
Theorem sendToOCR_loading_bracket (w : world) (base64 : string) (s : screen) :
  let o := run w (sendToOCR base64) s in
  completed o = Returned tt /\
  isLoading (final o) = false /\
  exists between,
    events o = Did (SetIsLoading true) :: between ++ [Did (SetIsLoading false)] /\
    (forall e, In e between -> is_loading_event e = false) /\
    (forall e req, In e (events o) -> requested e = Some req -> In e between).
Proof.
  intro o.
  pose proof (only_run _ w _ (apply (SetIsLoading true) s)
                (transmit_leaves_loading base64)) as Hquiet.
  rewrite run_try_catch in Hquiet.
  assert (Hshape : exists between,
             completed o = Returned tt /\
             isLoading (final o) = false /\
             events o = Did (SetIsLoading true) :: between ++ [Did (SetIsLoading false)] /\
             Forall (fun e => is_loading_event e = false) between).
  { subst o; rewrite run_sendToOCR.
    destruct (completed (run w (transmit base64) (apply (SetIsLoading true) s)))
      as [[]|error].
    - eexists; repeat split; try reflexivity; exact Hquiet.
    - rewrite run_report in Hquiet.
      eexists; repeat split; try reflexivity; exact Hquiet. }
  destruct Hshape as (between & Hc & Hl & He & Hq).
  split; [exact Hc|]. split; [exact Hl|].
  exists between. split; [exact He|]. split.
  - intros e Hin. rewrite Forall_forall in Hq. now apply Hq.
  - intros e req Hin Hreq. rewrite He in Hin.
    destruct Hin as [<-|Hin]; [discriminate Hreq|].
    apply in_app_or in Hin. destruct Hin as [Hin|[<-|[]]]; [exact Hin|discriminate Hreq].
Qed.

Lemma sendToOCR_returns (w : world) (base64 : string) (s : screen) :
  completed (run w (sendToOCR base64) s) = Returned tt.
Proof.
  rewrite run_sendToOCR.
  now destruct (completed (run w (transmit base64) (apply (SetIsLoading true) s))).
Qed.

Lemma run_detached_sendToOCR (w : world) (base64 : string) (s : screen) :
  run w (detached (sendToOCR base64)) s = run w (sendToOCR base64) s.
Proof.
  unfold detached; rewrite run_try_catch.
  pose proof (sendToOCR_returns w base64 s) as H.
  destruct (run w (sendToOCR base64) s) as [c f e]; cbn in *; now subst c.
Qed.

(** ** Single steps of [run] *)

Lemma run_perform_then {A : Type} (w : world) (a : action) (q : prog A) (s : screen) :
  run w (perform a ;; q) s = emit (Did a) (run w q (apply a s)).
Proof. reflexivity. Qed.

Lemma run_await_resolved {X A : Type} (w : world) (c : call X) (x : X) (f : X -> prog A)
    (s : screen) :
  answer w c = Resolved x ->
  run w (bind (await c) f) s = emit (Called c) (run w (f x) s).
Proof. intro H; cbn; now rewrite H. Qed.

Lemma run_await_rejected {X A : Type} (w : world) (c : call X) (e : thrown) (f : X -> prog A)
    (s : screen) :
  answer w c = Rejected e ->
  run w (bind (await c) f) s =
  {| completed := Threw e; final := s; events := [Called c] |}.
Proof. intro H; cbn; now rewrite H. Qed.

Lemma run_read_apiKey {A : Type} (w : world) (f : value -> prog A) (s : screen) :
  run w (bind read_apiKey f) s =
  emit ReadConfig (run w (f (apiKey_of (expoConfig (ambient w)))) s).
Proof. reflexivity. Qed.

Lemma run_lift_normal {A B : Type} (w : world) (r : result A) (a : A) (f : A -> prog B)
    (s : screen) :
  r = Normal a -> run w (bind (lift r) f) s = run w (f a) s.
Proof. now intros ->. Qed.

Lemma run_lift_abrupt {A B : Type} (w : world) (r : result A) (t : type_error)
    (f : A -> prog B) (s : screen) :
  r = Abrupt t ->
  run w (bind (lift r) f) s =
  {| completed := Threw (ErrorObject (typeErrorMessage (ambient w) t));
     final := s; events := [] |}.
Proof. now intros ->. Qed.

(** A part of the state that none of a program's actions changes. *)
Lemma run_frame {A T : Type} (view : screen -> T) (P : event -> Prop) (w : world)
    (p : prog A) (s : screen) :
  (forall a s0, P (Did a) -> view (apply a s0) = view s0) ->
  only P p -> view (final (run w p s)) = view s.
Proof.
  intro Hframe; revert s.
  induction p as [x|e|b k IH|k IH|t k IH|X c k IH]; intros s Hp; cbn in *; auto.
  - destruct Hp as [Hb Hk]. rewrite IH by exact Hk. now apply Hframe.
  - destruct Hp as [_ Hk]. now apply IH.
  - destruct Hp as [_ Hk]. now apply IH.
Qed.

Lemma sendToOCR_pipeline_events (base64 : string) :
  only pipeline_event (sendToOCR base64).
Proof.
  unfold sendToOCR. cbn [bind perform only]. split; [exact I|].
  apply only_finally; [|cbn; tauto].
  unfold transmit, interpret, report, read_apiKey.
  only_steps; cbn; try exact I; only_steps; exact I.
Qed.

Lemma sendToOCR_keeps_image (w : world) (base64 : string) (s : screen) :
  imageUri (final (run w (sendToOCR base64) s)) = imageUri s.
Proof.
  apply (run_frame imageUri pipeline_event); [|apply sendToOCR_pipeline_events].
  intros a s0 H; destruct a; cbn in *; tauto || reflexivity.
Qed.

(** ** The handler [pickImage] *)

(** C2.  When the flag [apiConfigured] is false, pressing the button shows
    the configuration alert and does nothing else: the state is unchanged, no
    call is made (neither the permission request nor [fetch]) and no
    invocation stays suspended. *)
Theorem pickImage_unconfigured (w : world) (s : screen) :
  apiConfigured s = false ->
  run w (onPress s) s =
    {| completed := Returned tt; final := s;
       events := [Did (Alert "配置错误" "API密钥未配置，请先设置app.config.js和.env文件")] |} /\
  (forall (X : Type) (c : call X), ~ In (Called c) (events (run w (onPress s) s))) /\
  advance (ambient w) (onPress s) s = (s, None).
Proof.
  intro H; unfold onPress; rewrite H; cbn.
  repeat split. intros X c [Hc|[]]; discriminate Hc.
Qed.

Lemma pickImage_unconfigured_witness :
  apiConfigured initial = false /\
  run (sample_world configured_host allowed (Resolved (Selected [receipt]))
         (Rejected NonError) (Rejected NonError)) (onPress initial) initial =
    {| completed := Returned tt; final := initial;
       events := [Did (Alert "配置错误" "API密钥未配置，请先设置app.config.js和.env文件")] |}.
Proof.
  split; [reflexivity|].
  apply (pickImage_unconfigured
           (sample_world configured_host allowed (Resolved (Selected [receipt]))
              (Rejected NonError) (Rejected NonError)) initial).
  reflexivity.
Defined.

(** The part of [pickImage] after the gate check, inside its [try]. *)
Lemma run_pickImage_granted (w : world) (s : screen) (p : permission_response)
    (choice : picker_result) :
  permission w = Resolved p ->
  granted p = true ->
  picker w pick_options = Resolved choice ->
  run w (pickImage true) s =
  emit (Called RequestMediaLibraryPermissions)
    (emit (Called picker_call)
       (match choice with
        | Canceled => {| completed := Returned tt; final := s; events := [] |}
        | Selected [] =>
            run w (perform (ConsoleError "图片选择错误:"
                              (ErrorObject (typeErrorMessage (ambient w) (ReadOfNullish "uri")))) ;;
                   perform (Alert "错误" "选择图片时发生错误")) s
        | Selected (first :: _) =>
            emit (Did (SetImageUri (uri first)))
              (match encoded first with
               | Some data => run w (sendToOCR data) (apply (SetImageUri (uri first)) s)
               | None =>
                   run w (perform (Alert "错误" "无法获取图片数据"))
                     (apply (SetImageUri (uri first)) s)
               end)
        end)).
Proof.
  intros Hp Hg Hc. unfold pickImage. cbn [negb].
  rewrite run_try_catch, run_await_resolved with (x := p) by exact Hp.
  rewrite Hg. cbn [negb].
  rewrite run_await_resolved with (x := choice) by exact Hc.
  destruct choice as [|[|first rest]]; try reflexivity.
  cbn [bind perform emit run completed final events].
  destruct (encoded first) as [data|]; [|reflexivity].
  rewrite run_detached_sendToOCR.
  pose proof (sendToOCR_returns w data (apply (SetImageUri (uri first)) s)) as Hr.
  destruct (run w (sendToOCR data) (apply (SetImageUri (uri first)) s)) as [c f e].
  cbn in *. now subst c.
Qed.

(** C6.  When the user cancels the picker, the handler ends after the two
    calls (permission request, picker): the state, and so the result text, is
    unchanged, there is no alert and [isLoading] is never set. *)
Theorem pickImage_cancelled (w : world) (s : screen) (p : permission_response) :
  apiConfigured s = true ->
  permission w = Resolved p ->
  granted p = true ->
  picker w pick_options = Resolved Canceled ->
  let o := run w (onPress s) s in
  o = {| completed := Returned tt; final := s;
         events := [Called RequestMediaLibraryPermissions; Called picker_call] |} /\
  ocrText (final o) = ocrText s /\
  (forall e, In e (events o) -> is_alert e = false /\ is_loading_event e = false).
Proof.
  intros Hs Hp Hg Hc o. subst o. unfold onPress. rewrite Hs.
  rewrite (run_pickImage_granted w s p Canceled Hp Hg Hc). cbn.
  repeat split; destruct H as [<-|[<-|[]]]; reflexivity.
Qed.

Lemma pickImage_cancelled_witness :
  let w := sample_world configured_host allowed (Resolved Canceled)
             (Rejected NonError) (Rejected NonError) in
  apiConfigured showing = true /\
  permission w = allowed /\
  picker w pick_options = Resolved Canceled /\
  final (run w (onPress showing) showing) = showing.
Proof.
  intro w.
  split; [reflexivity|]. split; [reflexivity|]. split; [reflexivity|].
  exact (f_equal final
           (proj1 (pickImage_cancelled w showing {| granted := true |}
                     eq_refl eq_refl eq_refl eq_refl))).
Defined.

(** C10.  When the picker returns a selection, the image shown becomes the
    first asset's URI, and this is the first thing done after the picker
    returns: with no encoded data the only further effect is the alert, so the
    result text stays as it was; with encoded data the run of [sendToOCR]
    follows and leaves the image in place. *)
Theorem pickImage_shows_selection (w : world) (s : screen) (p : permission_response)
    (first : asset) (rest : list asset) :
  apiConfigured s = true ->
  permission w = Resolved p ->
  granted p = true ->
  picker w pick_options = Resolved (Selected (first :: rest)) ->
  let o := run w (onPress s) s in
  imageUri (final o) = Some (uri first) /\
  (encoded first = None ->
   o = {| completed := Returned tt;
          final := apply (SetImageUri (uri first)) s;
          events := selection_prefix first ++ [Did (Alert "错误" "无法获取图片数据")] |} /\
   ocrText (final o) = ocrText s) /\
  (forall data, encoded first = Some data ->
   events o = (selection_prefix first ++
               events (run w (sendToOCR data) (apply (SetImageUri (uri first)) s)))%list).
Proof.
  intros Hs Hp Hg Hc o. subst o. unfold onPress. rewrite Hs.
  rewrite (run_pickImage_granted w s p _ Hp Hg Hc).
  destruct (encoded first) as [data|]; cbn [emit final events completed].
  - split; [|split; [discriminate|]].
    + now rewrite sendToOCR_keeps_image.
    + intros data' [= <-]. reflexivity.
  - split; [reflexivity|split; [|discriminate]].
    intros _. split; reflexivity.
Qed.

Lemma pickImage_shows_selection_witness :
  let w := sample_world configured_host allowed (Resolved (Selected [bare_receipt]))
             (Rejected NonError) (Rejected NonError) in
  apiConfigured showing = true /\
  permission w = allowed /\
  picker w pick_options = Resolved (Selected [bare_receipt]) /\
  encoded bare_receipt = None /\
  imageUri (final (run w (onPress showing) showing)) = Some "file:///receipt.jpg" /\
  ocrText (final (run w (onPress showing) showing)) = VStr "TOTAL 12".
Proof.
  intro w.
  pose proof (pickImage_shows_selection w showing {| granted := true |} bare_receipt []
                eq_refl eq_refl eq_refl eq_refl) as H.
  split; [reflexivity|]. split; [reflexivity|]. split; [reflexivity|].
  split; [reflexivity|]. split.
  - exact (proj1 H).
  - exact (proj2 (proj1 (proj2 H) eq_refl)).
Defined.

(** ** The transmission step [sendToOCR] *)

(** The [try] block up to the reply of [fetch]. *)
Lemma run_transmit_replied (w : world) (base64 : string) (s : screen)
    (key_text : string) (res : response) :
  truthy (apiKey_of (expoConfig (ambient w))) = true ->
  to_string (apiKey_of (expoConfig (ambient w))) = Normal key_text ->
  fetch w (ocr_request key_text base64) = Resolved res ->
  run w (transmit base64) s =
  prepend [ReadConfig; Did (ConsoleLog "正在发送OCR请求...");
           Called (Fetch (ocr_request key_text base64))]
    (run w (interpret res) s).
Proof.
  intros Hkey Htext Hfetch. unfold transmit.
  rewrite run_read_apiKey, Hkey. cbn [negb].
  rewrite run_perform_then, (run_lift_normal _ _ key_text) by exact Htext.
  rewrite run_await_resolved with (x := res) by exact Hfetch.
  reflexivity.
Qed.

(** A failure thrown by the [try] block is surfaced by the [catch] block. *)
Lemma thrown_is_surfaced (w : world) (base64 : string) (s : screen) (error : thrown) :
  completed (run w (transmit base64) (apply (SetIsLoading true) s)) = Threw error ->
  surfaced (run w (sendToOCR base64) s) (describe error).
Proof.
  intro H. rewrite run_sendToOCR, H. unfold surfaced; cbn [completed final events].
  repeat split.
  - right. apply in_or_app. left. apply in_or_app. right. cbn; auto.
  - right. apply in_or_app. left. apply in_or_app. right. cbn; auto.
Qed.

(** Interpretation of a reply with a success status whose body parses. *)
Lemma run_interpret_success (w : world) (res : response) (data text : value) (s : screen) :
  ok res = true ->
  json w res = Resolved data ->
  read_text data = Normal text ->
  run w (interpret res) s =
  {| completed := Returned tt;
     final := apply (SetOcrText (if truthy text then text else VStr no_text_placeholder)) s;
     events := [Called (Json res);
                Did (SetOcrText (if truthy text then text else VStr no_text_placeholder))] |}.
Proof.
  intros Hok Hjson Htext. unfold interpret. rewrite Hok. cbn [negb].
  rewrite run_await_resolved with (x := data) by exact Hjson.
  rewrite (run_lift_normal _ _ text) by exact Htext.
  now destruct (truthy text).
Qed.

(** Interpretation of a reply with a failure status, once the error data
    ([errorData]) and the value of [errorData.error?.message] are known. *)
Lemma run_interpret_failure (w : world) (res : response) (errorData message : value)
    (detail : string) (s : screen) :
  ok res = false ->
  match json w res with Resolved d => d | Rejected _ => VObj [] end = errorData ->
  read_error_message errorData = Normal message ->
  to_string (or_else message (VStr (statusText res))) = Normal detail ->
  run w (interpret res) s =
  {| completed := Threw (ErrorObject ("API错误 (" ++ decimal (status res) ++ "): " ++ detail));
     final := s;
     events := [Called (Json res)] |}.
Proof.
  intros Hok Hdata Hmessage Hdetail. unfold interpret. rewrite Hok. cbn [negb].
  unfold await_or. cbn [bind run answer].
  destruct (json w res) as [d|e]; subst errorData; cbn [bind];
    rewrite (run_lift_normal _ _ message) by exact Hmessage;
    rewrite (run_lift_normal _ _ detail) by exact Hdetail; reflexivity.
Qed.

(** Interpretation of a reply with a failure status always throws an [Error]. *)
Lemma run_interpret_failure_throws (w : world) (res : response) (s : screen) :
  ok res = false ->
  exists m, completed (run w (interpret res) s) = Threw (ErrorObject m).
Proof.
  intros Hok. unfold interpret. rewrite Hok. cbn [negb].
  unfold await_or. cbn [bind run answer emit completed].
  assert (H : forall d, exists m,
             completed (run w (message <- lift (read_error_message d) ;;
                               detail <- lift (to_string (or_else message (VStr (statusText res)))) ;;
                               @Throw unit
                                 (ErrorObject ("API错误 (" ++ decimal (status res) ++ "): " ++ detail)))
                          s) = Threw (ErrorObject m)).
  { intro d. destruct (read_error_message d) as [message|t]; cbn; [|eauto].
    destruct (to_string (or_else message (VStr (statusText res)))); cbn; eauto. }
  destruct (json w res); apply H.
Qed.

Lemma completed_prepend {A : Type} (before : list event) (o : outcome A) :
  completed (prepend before o) = completed o.
Proof. reflexivity. Qed.

Lemma truthy_text (text : string) : text <> "" -> truthy (VStr text) = true.
Proof. intro H; cbn. apply String.eqb_neq in H. now rewrite H. Qed.

(** Success replies on which the property chain evaluates.  When the reply
    has a success status, its body parses and
    [data.responses?.[0]?.fullTextAnnotation?.text] evaluates, the result text
    becomes that value itself if it is truthy, in particular any non-empty
    string, unchanged; and the fixed placeholder if it is falsy, in particular
    missing or the empty string.  No alert is shown in either case, and the
    run consists of exactly these events. *)
Theorem success_sets_text (w : world) (base64 : string) (s : screen)
    (key_text : string) (res : response) (data text : value) :
  truthy (apiKey_of (expoConfig (ambient w))) = true ->
  to_string (apiKey_of (expoConfig (ambient w))) = Normal key_text ->
  fetch w (ocr_request key_text base64) = Resolved res ->
  ok res = true ->
  json w res = Resolved data ->
  read_text data = Normal text ->
  let o := run w (sendToOCR base64) s in
  let shown := if truthy text then text else VStr no_text_placeholder in
  completed o = Returned tt /\
  ocrText (final o) = shown /\
  events o = [Did (SetIsLoading true); ReadConfig; Did (ConsoleLog "正在发送OCR请求...");
              Called (Fetch (ocr_request key_text base64)); Called (Json res);
              Did (SetOcrText shown); Did (SetIsLoading false)] /\
  (forall e, In e (events o) -> is_alert e = false) /\
  (forall t, text = VStr t -> t <> "" -> ocrText (final o) = VStr t) /\
  (text = VUndefined \/ text = VStr "" -> ocrText (final o) = VStr no_text_placeholder).
Proof.
  intros Hkey Htext Hfetch Hok Hjson Hread o shown.
  assert (Ho : o = {| completed := Returned tt;
                      final := apply (SetIsLoading false)
                                 (apply (SetOcrText shown) (apply (SetIsLoading true) s));
                      events := [Did (SetIsLoading true); ReadConfig;
                                 Did (ConsoleLog "正在发送OCR请求...");
                                 Called (Fetch (ocr_request key_text base64));
                                 Called (Json res);
                                 Did (SetOcrText shown); Did (SetIsLoading false)] |}).
  { subst o. rewrite run_sendToOCR.
    rewrite (run_transmit_replied w base64 _ key_text res Hkey Htext Hfetch).
    rewrite (run_interpret_success w res data text _ Hok Hjson Hread).
    reflexivity. }
  rewrite Ho; cbn [completed final events apply ocrText].
  split; [reflexivity|]. split; [reflexivity|]. split; [reflexivity|]. split; [|split].
  - intros e He. repeat (destruct He as [<-|He]; [reflexivity|]). destruct He.
  - intros t -> Ht. subst shown. now rewrite truthy_text.
  - intros [->| ->]; reflexivity.
Qed.

Lemma success_sets_text_witness :
  let w := service success (Resolved (annotated "Hello")) in
  truthy (apiKey_of (expoConfig (ambient w))) = true /\
  to_string (apiKey_of (expoConfig (ambient w))) = Normal "K" /\
  fetch w (ocr_request "K" "QUJD") = Resolved success /\
  ok success = true /\
  json w success = Resolved (annotated "Hello") /\
  read_text (annotated "Hello") = Normal (VStr "Hello") /\
  ocrText (final (run w (sendToOCR "QUJD") ready)) = VStr "Hello".
Proof.
  intro w. do 6 (split; [reflexivity|]).
  exact (proj1 (proj2 (success_sets_text w "QUJD" ready "K" success
                         (annotated "Hello") (VStr "Hello")
                         eq_refl eq_refl eq_refl eq_refl eq_refl eq_refl))).
Defined.

(** Failure replies on which the property chain evaluates.  When the reply
    has a failure status, the run always ends with a failure message shown
    both as result text and in an alert.  The message is [API错误 (status): ]
    followed by the status text when the body does not parse or
    [errorData.error?.message] evaluates to a falsy value (missing or empty),
    and followed by the server's message when it evaluates to a non-empty
    string. *)
Theorem service_error_is_surfaced (w : world) (base64 : string) (s : screen)
    (key_text : string) (res : response) :
  truthy (apiKey_of (expoConfig (ambient w))) = true ->
  to_string (apiKey_of (expoConfig (ambient w))) = Normal key_text ->
  fetch w (ocr_request key_text base64) = Resolved res ->
  ok res = false ->
  let o := run w (sendToOCR base64) s in
  let api_error := fun detail => "API错误 (" ++ decimal (status res) ++ "): " ++ detail in
  (exists m, surfaced o m) /\
  (forall e, json w res = Rejected e -> surfaced o (api_error (statusText res))) /\
  (forall errorData message,
      json w res = Resolved errorData ->
      read_error_message errorData = Normal message ->
      truthy message = false ->
      surfaced o (api_error (statusText res))) /\
  (forall errorData text,
      json w res = Resolved errorData ->
      read_error_message errorData = Normal (VStr text) ->
      text <> "" ->
      surfaced o (api_error text)).
Proof.
  intros Hkey Htext Hfetch Hok o api_error. subst o.
  pose proof (run_transmit_replied w base64 (apply (SetIsLoading true) s)
                key_text res Hkey Htext Hfetch) as Hrun.
  assert (Hsurf : forall m,
             completed (run w (interpret res) (apply (SetIsLoading true) s))
             = Threw (ErrorObject m) ->
             surfaced (run w (sendToOCR base64) s) m).
  { intros m Hm. apply (thrown_is_surfaced w base64 s (ErrorObject m)).
    now rewrite Hrun, completed_prepend. }
  split; [|split; [|split]].
  - destruct (run_interpret_failure_throws w res (apply (SetIsLoading true) s) Hok)
      as [m Hm].
    exists m. now apply Hsurf.
  - intros e Hjson. apply Hsurf.
    rewrite (run_interpret_failure w res (VObj []) VUndefined (statusText res));
      try reflexivity; try exact Hok.
    now rewrite Hjson.
  - intros errorData message Hjson Hmessage Hfalsy. apply Hsurf.
    rewrite (run_interpret_failure w res errorData message (statusText res));
      try reflexivity; try assumption.
    + now rewrite Hjson.
    + unfold or_else. now rewrite Hfalsy.
  - intros errorData text Hjson Hmessage Hne. apply Hsurf.
    rewrite (run_interpret_failure w res errorData (VStr text) text);
      try reflexivity; try assumption.
    + now rewrite Hjson.
    + unfold or_else. now rewrite (truthy_text text Hne).
Qed.

Lemma service_error_is_surfaced_witness :
  let w := service bad_request (Resolved bad_image) in
  truthy (apiKey_of (expoConfig (ambient w))) = true /\
  to_string (apiKey_of (expoConfig (ambient w))) = Normal "K" /\
  fetch w (ocr_request "K" "QUJD") = Resolved bad_request /\
  ok bad_request = false /\
  json w bad_request = Resolved bad_image /\
  read_error_message bad_image = Normal (VStr "Bad image") /\
  "Bad image" <> "" /\
  surfaced (run w (sendToOCR "QUJD") ready) "API错误 (400): Bad image".
Proof.
  intro w. do 7 (split; [reflexivity || discriminate|]).
  exact (proj2 (proj2 (proj2
           (service_error_is_surfaced w "QUJD" ready "K" bad_request
              eq_refl eq_refl eq_refl eq_refl)))
           bad_image "Bad image" eq_refl eq_refl
           (fun H : "Bad image" = "" => eq_ind "Bad image"
              (fun x => match x with EmptyString => False | String _ _ => True end)
              I "" H)).
Defined.

(** Interpretation of a reply whose body parses to [null]: the first
    property read throws. *)
Lemma run_interpret_null (w : world) (res : response) (s : screen) :
  json w res = Resolved VNull ->
  run w (interpret res) s =
  {| completed :=
       Threw (ErrorObject
                (typeErrorMessage (ambient w)
                   (ReadOfNullish (if ok res then "responses" else "error"))));
     final := s;
     events := [Called (Json res)] |}.
Proof.
  intro Hjson. unfold interpret, await_or.
  destruct (ok res); cbn [negb bind await run answer emit]; rewrite Hjson; reflexivity.
Qed.

(** C4.  The code does not do what the claim says when a success reply has
    a body that parses to [null]: [data.responses] throws (line 120), the
    [catch] block writes the failure text and alerts, and the result text is
    not the placeholder.  The neighbouring case of a body [{}], in which the
    text is missing just the same, does get the placeholder without an
    alert. *)
Theorem null_success_body_is_reported_as_failure (w : world) (base64 : string)
    (s : screen) (key_text : string) (res : response) :
  truthy (apiKey_of (expoConfig (ambient w))) = true ->
  to_string (apiKey_of (expoConfig (ambient w))) = Normal key_text ->
  fetch w (ocr_request key_text base64) = Resolved res ->
  ok res = true ->
  let o := run w (sendToOCR base64) s in
  (json w res = Resolved VNull ->
   surfaced o (typeErrorMessage (ambient w) (ReadOfNullish "responses")) /\
   ocrText (final o) <> VStr no_text_placeholder) /\
  (json w res = Resolved (VObj []) ->
   ocrText (final o) = VStr no_text_placeholder /\
   forall e, In e (events o) -> is_alert e = false).
Proof.
  intros Hkey Htext Hfetch Hok o. subst o. split.
  - intro Hjson.
    assert (Hs : surfaced (run w (sendToOCR base64) s)
                   (typeErrorMessage (ambient w) (ReadOfNullish "responses"))).
    { apply (thrown_is_surfaced w base64 s
               (ErrorObject (typeErrorMessage (ambient w) (ReadOfNullish "responses")))).
      rewrite (run_transmit_replied w base64 _ key_text res Hkey Htext Hfetch).
      rewrite completed_prepend, (run_interpret_null w res _ Hjson), Hok. reflexivity. }
    split; [exact Hs|].
    destruct Hs as (_ & Htextshown & _). rewrite Htextshown. discriminate.
  - intro Hjson. rewrite run_sendToOCR.
    rewrite (run_transmit_replied w base64 _ key_text res Hkey Htext Hfetch).
    rewrite (run_interpret_success w res (VObj []) VUndefined _ Hok Hjson eq_refl).
    cbn. split; [reflexivity|].
    intros e He. repeat (destruct He as [<-|He]; [reflexivity|]). destruct He.
Qed.

Lemma null_success_body_is_reported_as_failure_witness :
  let w := service success (Resolved VNull) in
  let w' := service success (Resolved (VObj [])) in
  json w success = Resolved VNull /\
  ocrText (final (run w (sendToOCR "QUJD") ready))
  = VStr "识别失败: Cannot read property 'responses' of null" /\
  In (Did (Alert "错误" "OCR处理时发生错误: Cannot read property 'responses' of null"))
    (events (run w (sendToOCR "QUJD") ready)) /\
  ocrText (final (run w' (sendToOCR "QUJD") ready)) = VStr no_text_placeholder.
Proof.
  intros w w'.
  pose proof (proj1 (null_success_body_is_reported_as_failure w "QUJD" ready "K" success
                       eq_refl eq_refl eq_refl eq_refl) eq_refl) as [(_ & H1 & _ & H2) _].
  pose proof (proj2 (null_success_body_is_reported_as_failure w' "QUJD" ready "K" success
                       eq_refl eq_refl eq_refl eq_refl) eq_refl) as [H3 _].
  split; [reflexivity|]. split; [exact H1|]. split; [exact H2|exact H3].
Defined.

(** C5.  The code does not do what the claim says when a failure reply has
    a body that parses to [null]: [errorData.error] throws (line 114) and what
    is shown is the engine's [TypeError] message, with neither the status code
    nor the status text.  The neighbouring cases, a body that does not parse
    and a body [{}], do fall back to the status text. *)
Theorem null_error_body_loses_status_text (w : world) (base64 : string)
    (s : screen) (key_text : string) (res : response) :
  truthy (apiKey_of (expoConfig (ambient w))) = true ->
  to_string (apiKey_of (expoConfig (ambient w))) = Normal key_text ->
  fetch w (ocr_request key_text base64) = Resolved res ->
  ok res = false ->
  let o := run w (sendToOCR base64) s in
  let fallback := "API错误 (" ++ decimal (status res) ++ "): " ++ statusText res in
  (json w res = Resolved VNull ->
   surfaced o (typeErrorMessage (ambient w) (ReadOfNullish "error")) /\
   ocrText (final o)
   = VStr ("识别失败: " ++ typeErrorMessage (ambient w) (ReadOfNullish "error"))) /\
  (json w res = Resolved (VObj []) -> surfaced o fallback) /\
  (forall e, json w res = Rejected e -> surfaced o fallback).
Proof.
  intros Hkey Htext Hfetch Hok o fallback. subst o.
  pose proof (run_transmit_replied w base64 (apply (SetIsLoading true) s)
                key_text res Hkey Htext Hfetch) as Hrun.
  assert (Hsurf : forall m,
             completed (run w (interpret res) (apply (SetIsLoading true) s))
             = Threw (ErrorObject m) ->
             surfaced (run w (sendToOCR base64) s) m).
  { intros m Hm. apply (thrown_is_surfaced w base64 s (ErrorObject m)).
    now rewrite Hrun, completed_prepend. }
  split; [|split].
  - intro Hjson.
    assert (Hs : surfaced (run w (sendToOCR base64) s)
                   (typeErrorMessage (ambient w) (ReadOfNullish "error"))).
    { apply Hsurf. rewrite (run_interpret_null w res _ Hjson), Hok. reflexivity. }
    split; [exact Hs|]. now destruct Hs as (_ & Htextshown & _).
  - intro Hjson. apply Hsurf.
    rewrite (run_interpret_failure w res (VObj []) VUndefined (statusText res));
      try reflexivity; try exact Hok.
    now rewrite Hjson.
  - intros e Hjson. apply Hsurf.
    rewrite (run_interpret_failure w res (VObj []) VUndefined (statusText res));
      try reflexivity; try exact Hok.
    now rewrite Hjson.
Qed.

Lemma null_error_body_loses_status_text_witness :
  let w := service server_error (Resolved VNull) in
  let w' := service server_error (Resolved (VObj [])) in
  json w server_error = Resolved VNull /\
  ocrText (final (run w (sendToOCR "QUJD") ready))
  = VStr "识别失败: Cannot read property 'error' of null" /\
  ocrText (final (run w' (sendToOCR "QUJD") ready))
  = VStr "识别失败: API错误 (500): Internal Server Error".
Proof.
  intros w w'.
  pose proof (proj1 (null_error_body_loses_status_text w "QUJD" ready "K" server_error
                       eq_refl eq_refl eq_refl eq_refl) eq_refl) as [_ H1].
  pose proof (proj1 (proj2 (null_error_body_loses_status_text w' "QUJD" ready "K"
                              server_error eq_refl eq_refl eq_refl eq_refl)) eq_refl)
    as (_ & H2 & _).
  split; [reflexivity|]. split; [exact H1|exact H2].
Defined.

(** ** Which failures reach the result text *)

(** C3 does not hold as stated.  Refusing the permission is answered by an
    alert alone: the result text is not written, so the failure is not shown
    in both places. *)
Lemma permission_denied_not_in_result_text :
  let w := sample_world configured_host denied (Resolved (Selected [receipt]))
             (Resolved success) (Resolved (annotated "Hello")) in
  let o := run w (onPress showing) showing in
  events o = [Called RequestMediaLibraryPermissions; Did (Alert "权限错误" "需要相册访问权限")] /\
  ocrText (final o) = VStr "TOTAL 12" /\
  ~ (exists e, In e (events o) /\ is_result_update e = true).
Proof.
  cbv zeta. split; [reflexivity|]. split; [reflexivity|].
  intros (e & He & Hu). cbn in He.
  destruct He as [<-|[<-|[]]]; discriminate Hu.
Qed.

(** C3, amended.  A failure of the transmission step (anything thrown in the
    [try] block of [sendToOCR]: a rejected [fetch], a failure status, a body
    that does not parse) is shown both as result text and in an alert; the two
    texts end with the same description of the error, after the prefixes
    [识别失败: ] and [OCR处理时发生错误: ].  A refused permission and a selection
    without encoded data are answered by an alert alone, and the result text
    keeps its value. *)
Theorem failures_are_surfaced (w : world) (s : screen) :
  (forall base64 error,
      completed (run w (transmit base64) (apply (SetIsLoading true) s)) = Threw error ->
      surfaced (run w (sendToOCR base64) s) (describe error)) /\
  (forall base64 key_text error,
      truthy (apiKey_of (expoConfig (ambient w))) = true ->
      to_string (apiKey_of (expoConfig (ambient w))) = Normal key_text ->
      fetch w (ocr_request key_text base64) = Rejected error ->
      surfaced (run w (sendToOCR base64) s) (describe error)) /\
  (forall base64 key_text res error,
      truthy (apiKey_of (expoConfig (ambient w))) = true ->
      to_string (apiKey_of (expoConfig (ambient w))) = Normal key_text ->
      fetch w (ocr_request key_text base64) = Resolved res ->
      ok res = true ->
      json w res = Rejected error ->
      surfaced (run w (sendToOCR base64) s) (describe error)) /\
  (forall p,
      apiConfigured s = true ->
      permission w = Resolved p ->
      granted p = false ->
      run w (onPress s) s =
      {| completed := Returned tt; final := s;
         events := [Called RequestMediaLibraryPermissions;
                    Did (Alert "权限错误" "需要相册访问权限")] |}) /\
  (forall p first rest,
      apiConfigured s = true ->
      permission w = Resolved p ->
      granted p = true ->
      picker w pick_options = Resolved (Selected (first :: rest)) ->
      encoded first = None ->
      events (run w (onPress s) s) =
        (selection_prefix first ++ [Did (Alert "错误" "无法获取图片数据")])%list /\
      ocrText (final (run w (onPress s) s)) = ocrText s).
Proof.
  split; [|split; [|split; [|split]]].
  - intros base64 error. apply thrown_is_surfaced.
  - intros base64 key_text error Hkey Htext Hfetch. apply thrown_is_surfaced.
    unfold transmit. rewrite run_read_apiKey, Hkey. cbn [negb].
    rewrite run_perform_then, (run_lift_normal _ _ key_text) by exact Htext.
    now rewrite (run_await_rejected _ _ error) by exact Hfetch.
  - intros base64 key_text res error Hkey Htext Hfetch Hok Hjson.
    apply thrown_is_surfaced.
    rewrite (run_transmit_replied w base64 _ key_text res Hkey Htext Hfetch).
    rewrite completed_prepend. unfold interpret. rewrite Hok. cbn [negb].
    now rewrite (run_await_rejected _ _ error) by exact Hjson.
  - intros p Hs Hp Hg. unfold onPress, pickImage. rewrite Hs. cbn [negb].
    rewrite run_try_catch, run_await_resolved with (x := p) by exact Hp.
    rewrite Hg. reflexivity.
  - intros p first rest Hs Hp Hg Hc Henc. unfold onPress. rewrite Hs.
    rewrite (run_pickImage_granted w s p _ Hp Hg Hc), Henc. split; reflexivity.
Qed.

Lemma failures_are_surfaced_witness :
  let broken := service server_error (Rejected (ErrorObject "Unexpected token <")) in
  let offline := sample_world configured_host allowed (Resolved (Selected [receipt]))
                   (Rejected (ErrorObject "Network request failed")) (Rejected NonError) in
  let garbled := service success (Rejected (ErrorObject "Unexpected token <")) in
  let refused := sample_world configured_host denied (Resolved Canceled)
                   (Rejected NonError) (Rejected NonError) in
  let bare := sample_world configured_host allowed (Resolved (Selected [bare_receipt]))
                (Rejected NonError) (Rejected NonError) in
  surfaced (run broken (sendToOCR "QUJD") showing) "API错误 (500): Internal Server Error" /\
  surfaced (run offline (sendToOCR "QUJD") showing) "Network request failed" /\
  surfaced (run garbled (sendToOCR "QUJD") showing) "Unexpected token <" /\
  final (run refused (onPress showing) showing) = showing /\
  ocrText (final (run bare (onPress showing) showing)) = VStr "TOTAL 12".
Proof.
  intros broken offline garbled refused bare.
  split; [|split; [|split; [|split]]].
  - exact (proj1 (failures_are_surfaced broken showing) "QUJD"
             (ErrorObject "API错误 (500): Internal Server Error") eq_refl).
  - exact (proj1 (proj2 (failures_are_surfaced offline showing)) "QUJD" "K"
             (ErrorObject "Network request failed") eq_refl eq_refl eq_refl).
  - exact (proj1 (proj2 (proj2 (failures_are_surfaced garbled showing))) "QUJD" "K"
             success (ErrorObject "Unexpected token <")
             eq_refl eq_refl eq_refl eq_refl eq_refl).
  - exact (f_equal final
             (proj1 (proj2 (proj2 (proj2 (failures_are_surfaced refused showing))))
                {| granted := false |} eq_refl eq_refl eq_refl)).
  - exact (proj2 (proj2 (proj2 (proj2 (proj2 (failures_are_surfaced bare showing))))
                    {| granted := true |} bare_receipt [] eq_refl eq_refl eq_refl
                    eq_refl eq_refl)).
Defined.

(** ** The request *)

Lemma escape_char_plain (c : ascii) :
  plain_char c = true -> escape_char c = String c EmptyString.
Proof.
  unfold plain_char, escape_char. cbv zeta.
  intro H. apply andb_prop in H. destruct H as [H H92].
  apply andb_prop in H. destruct H as [H32 H34].
  apply negb_true_iff in H32, H34, H92.
  rewrite H34, H92, H32.
  apply Nat.ltb_ge in H32.
  repeat match goal with
         | |- context [Nat.eqb (nat_of_ascii c) ?k] =>
             let E := fresh "E" in
             destruct (Nat.eqb (nat_of_ascii c) k) eqn:E;
             [apply Nat.eqb_eq in E; lia|]
         end.
  reflexivity.
Qed.

Lemma escape_plain (s : string) : plain s = true -> escape s = s.
Proof.
  induction s as [|c rest IH]; cbn; [reflexivity|].
  intro H. apply andb_prop in H. destruct H as [Hc Hrest].
  now rewrite escape_char_plain, IH.
Qed.

Lemma append_assoc (a b c : string) : (a ++ b) ++ c = a ++ (b ++ c).
Proof. induction a as [|x a IH]; cbn; [reflexivity|now rewrite IH]. Qed.

Lemma stringify_body (base64 : string) :
  JSON_stringify (ocr_body base64) = Some (body_text (quote base64)).
Proof.
  unfold body_text. vm_compute. f_equal.
  repeat (rewrite !append_assoc; cbn [String.append]).
  reflexivity.
Qed.

Lemma interpret_makes_no_request (res : response) :
  only (fun e => requested e = None) (interpret res).
Proof. unfold interpret. only_steps; cbn; try reflexivity; only_steps; reflexivity. Qed.

Ltac no_such_event He Hreq :=
  cbn in He;
  repeat (destruct He as [<-|He]; [discriminate Hreq|]);
  destruct He.

Lemma transmit_requests (w : world) (base64 : string) (s : screen) (e : event)
    (req : request) :
  In e (events (run w (transmit base64) s)) ->
  requested e = Some req ->
  truthy (apiKey_of (expoConfig (ambient w))) = true /\
  exists key_text,
    to_string (apiKey_of (expoConfig (ambient w))) = Normal key_text /\
    req = ocr_request key_text base64.
Proof.
  unfold transmit. rewrite run_read_apiKey.
  destruct (truthy (apiKey_of (expoConfig (ambient w)))) eqn:Hkey; cbn [negb].
  2: { intros He Hreq. no_such_event He Hreq. }
  rewrite run_perform_then.
  destruct (to_string (apiKey_of (expoConfig (ambient w)))) as [key_text|t] eqn:Htext.
  2: { rewrite (run_lift_abrupt _ _ t) by reflexivity.
       intros He Hreq. no_such_event He Hreq. }
  rewrite (run_lift_normal _ _ key_text) by reflexivity.
  intros He Hreq. split; [reflexivity|]. exists key_text. split; [reflexivity|].
  cbn [bind await run emit events] in He.
  destruct He as [<-|[<-|[<-|He]]]; try discriminate Hreq.
  - now injection Hreq as <-.
  - exfalso.
    assert (Hquiet : only (fun e => requested e = None)
                       (bind (match answer w (Fetch (ocr_request key_text base64)) with
                              | Resolved x => Ret x
                              | Rejected e0 => Throw e0
                              end) interpret)).
    { destruct (answer w (Fetch (ocr_request key_text base64))); cbn; [|exact I].
      apply interpret_makes_no_request. }
    apply (only_run _ w _ s) in Hquiet. rewrite Forall_forall in Hquiet.
    specialize (Hquiet e He). congruence.
Qed.

Lemma sendToOCR_requests (w : world) (base64 : string) (s : screen) (e : event)
    (req : request) :
  In e (events (run w (sendToOCR base64) s)) ->
  requested e = Some req ->
  truthy (apiKey_of (expoConfig (ambient w))) = true /\
  exists key_text,
    to_string (apiKey_of (expoConfig (ambient w))) = Normal key_text /\
    req = ocr_request key_text base64.
Proof.
  rewrite run_sendToOCR. intros He Hreq.
  apply (transmit_requests w base64 (apply (SetIsLoading true) s) e req); [|exact Hreq].
  destruct (completed (run w (transmit base64) (apply (SetIsLoading true) s)));
    cbn [events] in He.
  - destruct He as [<-|He]; [discriminate Hreq|].
    apply in_app_or in He. destruct He as [He|He]; [exact He|no_such_event He Hreq].
  - destruct He as [<-|He]; [discriminate Hreq|].
    apply in_app_or in He. destruct He as [He|He]; [|no_such_event He Hreq].
    apply in_app_or in He. destruct He as [He|He]; [exact He|no_such_event He Hreq].
Qed.

(** C7.  Every request issued in a run of [pickImage] is the one built by
    [sendToOCR] from the credential and from the encoded data of the first
    selected asset: the fixed endpoint followed by [?key=] and the credential,
    method POST, the single header [Content-Type: application/json], and as
    body the serialisation of
    [{requests: [{image: {content}, features: [{type: 'TEXT_DETECTION'}]}]}],
    in which the encoded data stands unchanged when it needs no escaping. *)
Theorem requests_have_fixed_shape (w : world) (c : bool) (s : screen) (e : event)
    (req : request) :
  In e (events (run w (pickImage c) s)) ->
  requested e = Some req ->
  exists key_text first rest data,
    truthy (apiKey_of (expoConfig (ambient w))) = true /\
    to_string (apiKey_of (expoConfig (ambient w))) = Normal key_text /\
    picker w pick_options = Resolved (Selected (first :: rest)) /\
    encoded first = Some data /\
    req = ocr_request key_text data /\
    url req = "https://vision.googleapis.com/v1/images:annotate?key=" ++ key_text /\
    method req = "POST" /\
    headers req = [("Content-Type", "application/json")] /\
    body req = JSON_stringify (ocr_body data) /\
    body req = Some (body_text (quote data)) /\
    (plain data = true -> body req = Some (body_text (dquote ++ data ++ dquote))).
Proof.
  intros He Hreq. destruct c.
  2: { no_such_event He Hreq. }
  destruct (permission w) as [p|error] eqn:Hp.
  2: { unfold pickImage in He. cbn [negb] in He.
       rewrite run_try_catch, (run_await_rejected _ _ error) in He by exact Hp.
       no_such_event He Hreq. }
  destruct (granted p) eqn:Hg.
  2: { unfold pickImage in He. cbn [negb] in He.
       rewrite run_try_catch, run_await_resolved with (x := p) in He by exact Hp.
       rewrite Hg in He. no_such_event He Hreq. }
  destruct (picker w pick_options) as [choice|error] eqn:Hc.
  2: { unfold pickImage in He. cbn [negb] in He.
       rewrite run_try_catch, run_await_resolved with (x := p) in He by exact Hp.
       rewrite Hg in He. cbn [negb] in He.
       rewrite (run_await_rejected _ _ error) in He by exact Hc.
       no_such_event He Hreq. }
  rewrite (run_pickImage_granted w s p choice Hp Hg Hc) in He.
  destruct choice as [|[|first rest]]; try (no_such_event He Hreq).
  destruct (encoded first) as [data|] eqn:Henc; [|no_such_event He Hreq].
  cbn [emit events] in He.
  destruct He as [<-|[<-|[<-|He]]]; try discriminate Hreq.
  destruct (sendToOCR_requests w data _ e req He Hreq) as (Hkey & key_text & Htext & ->).
  exists key_text, first, rest, data.
  do 9 (split; [reflexivity || assumption|]).
  split; [apply stringify_body|].
  intro Hplain. cbn [ocr_request body]. rewrite stringify_body.
  unfold quote. now rewrite escape_plain.
Qed.

Lemma requests_have_fixed_shape_witness :
  let w := service success (Resolved (annotated "Hello")) in
  let e := Called (Fetch (ocr_request "K" "QUJD")) in
  In e (events (run w (pickImage true) ready)) /\
  requested e = Some (ocr_request "K" "QUJD") /\
  exists key_text first rest data,
    truthy (apiKey_of (expoConfig (ambient w))) = true /\
    to_string (apiKey_of (expoConfig (ambient w))) = Normal key_text /\
    picker w pick_options = Resolved (Selected (first :: rest)) /\
    encoded first = Some data /\
    ocr_request "K" "QUJD" = ocr_request key_text data /\
    url (ocr_request "K" "QUJD") =
      "https://vision.googleapis.com/v1/images:annotate?key=" ++ key_text /\
    method (ocr_request "K" "QUJD") = "POST" /\
    headers (ocr_request "K" "QUJD") = [("Content-Type", "application/json")] /\
    body (ocr_request "K" "QUJD") = JSON_stringify (ocr_body data) /\
    body (ocr_request "K" "QUJD") = Some (body_text (quote data)) /\
    (plain data = true ->
     body (ocr_request "K" "QUJD") = Some (body_text (dquote ++ data ++ dquote))).
Proof.
  intros w e.
  assert (Hin : In e (events (run w (pickImage true) ready))).
  { cbn. do 6 right. left. reflexivity. }
  split; [exact Hin|]. split; [reflexivity|].
  exact (requests_have_fixed_shape w true ready e (ocr_request "K" "QUJD")
           Hin eq_refl).
Defined.

(** ** Reads of the credential *)

Lemma quiet_filter (f : event -> bool) (l : list event) :
  Forall (fun e => f e = false) l -> filter f l = [].
Proof.
  induction 1 as [|e l He _ IH]; cbn; [reflexivity|]. now rewrite He.
Qed.

Lemma transmit_reads_once (w : world) (base64 : string) (s : screen) :
  exists tail,
    events (run w (transmit base64) s) = ReadConfig :: tail /\
    Forall (fun e => is_config_read e = false) tail.
Proof.
  unfold transmit. rewrite run_read_apiKey. cbn [emit events].
  eexists. split; [reflexivity|].
  apply only_run. unfold interpret.
  only_steps; cbn; try reflexivity; only_steps; reflexivity.
Qed.

Lemma sendToOCR_reads_once (w : world) (base64 : string) (s : screen) :
  config_reads (events (run w (sendToOCR base64) s)) = 1.
Proof.
  rewrite run_sendToOCR.
  destruct (transmit_reads_once w base64 (apply (SetIsLoading true) s))
    as (tail & Htail & Hquiet).
  apply quiet_filter in Hquiet. unfold config_reads.
  destruct (completed (run w (transmit base64) (apply (SetIsLoading true) s)));
    cbn [events]; rewrite Htail; cbn [filter is_config_read app];
    rewrite ?filter_app, Hquiet; reflexivity.
Qed.

Lemma only_weaken {A : Type} (P Q : event -> Prop) (p : prog A) :
  (forall e, P e -> Q e) -> only P p -> only Q p.
Proof.
  intro HPQ. induction p as [x|e|b k IH|k IH|t k IH|X c k IH]; cbn; auto.
  - intros [Hb Hk]; auto.
  - intros [Hb Hk]; auto.
  - intros [Hb Hk]; auto.
Qed.

Lemma pickImage_keeps_flag (c : bool) :
  only (fun e => is_flag_update e = false) (pickImage c).
Proof.
  unfold pickImage.
  apply only_try_catch; [|intro; cbn; tauto].
  destruct c; cbn [negb]; [|cbn; tauto].
  apply only_bind; [now apply only_await|]. intro p.
  destruct (negb (granted p)); [cbn; tauto|].
  apply only_bind; [now apply only_await|]. intros [|assets]; [exact I|].
  apply only_bind; [destruct assets; cbn; tauto|]. intro a.
  cbn [bind perform only]. split; [reflexivity|].
  destruct (encoded a); [|cbn; tauto].
  apply only_try_catch; [|intro; exact I].
  apply (only_weaken pipeline_event); [|apply sendToOCR_pipeline_events].
  intros [[]| |X []]; cbn; tauto || reflexivity.
Qed.

(** C8 does not hold as stated.  The credential is read twice when the
    screen is mounted and a picture is sent once: not exactly once. *)
Lemma credential_read_again_when_sending :
  let w := service success (Resolved (annotated "Hello")) in
  config_reads (events (session w)) = 2 /\
  config_reads (events (session w)) <> 1.
Proof. cbv zeta. split; [reflexivity|discriminate]. Qed.

(** C8, amended.  The flag [apiConfigured] is computed from the credential
    by the mount effect, with one read of the configuration, and no run of
    [pickImage] changes it; a press on the unconfigured screen reads nothing.
    Every run of [sendToOCR] reads the credential once more, and when it finds
    none it reports [API密钥未配置] without issuing a request. *)
Theorem credential_reads (w : world) :
  (config_reads (events (run w mountEffect initial)) = 1 /\
   apiConfigured (final (run w mountEffect initial))
   = truthy (apiKey_of (expoConfig (ambient w)))) /\
  (forall c s, apiConfigured (final (run w (pickImage c) s)) = apiConfigured s) /\
  (forall s, apiConfigured s = false -> config_reads (events (run w (onPress s) s)) = 0) /\
  (forall base64 s, config_reads (events (run w (sendToOCR base64) s)) = 1) /\
  (forall base64 s,
      truthy (apiKey_of (expoConfig (ambient w))) = false ->
      surfaced (run w (sendToOCR base64) s) "API密钥未配置" /\
      forall e, In e (events (run w (sendToOCR base64) s)) -> requested e = None).
Proof.
  split; [|split; [|split; [|split]]].
  - unfold mountEffect. rewrite run_read_apiKey.
    destruct (truthy (apiKey_of (expoConfig (ambient w)))); split; reflexivity.
  - intros c s.
    apply (run_frame apiConfigured (fun e => is_flag_update e = false));
      [|apply pickImage_keeps_flag].
    intros a s0 H; destruct a; cbn in *; discriminate || reflexivity.
  - intros s H. unfold onPress. rewrite H. reflexivity.
  - apply sendToOCR_reads_once.
  - intros base64 s Hkey.
    assert (Hrun : run w (transmit base64) (apply (SetIsLoading true) s) =
                   {| completed := Threw (ErrorObject "API密钥未配置");
                      final := apply (SetIsLoading true) s;
                      events := [ReadConfig] |}).
    { unfold transmit. now rewrite run_read_apiKey, Hkey. }
    split.
    + apply (thrown_is_surfaced w base64 s (ErrorObject "API密钥未配置")).
      now rewrite Hrun.
    + intros e He. rewrite run_sendToOCR, Hrun in He. cbn in He.
      repeat (destruct He as [<-|He]; [reflexivity|]). destruct He.
Qed.

Lemma credential_reads_witness :
  let w := sample_world (sample_host VNull) allowed (Resolved (Selected [receipt]))
             (Resolved success) (Resolved (annotated "Hello")) in
  apiConfigured initial = false /\
  config_reads (events (run w (onPress initial) initial)) = 0 /\
  truthy (apiKey_of (expoConfig (ambient w))) = false /\
  surfaced (run w (sendToOCR "QUJD") initial) "API密钥未配置".
Proof.
  intro w.
  split; [reflexivity|]. split; [|split; [reflexivity|]].
  - exact (proj1 (proj2 (proj2 (credential_reads w))) initial eq_refl).
  - exact (proj1 (proj2 (proj2 (proj2 (proj2 (credential_reads w))))
                    "QUJD" initial eq_refl)).
Defined.

(** ** The event loop and the loading indicator *)

Lemma isLoading_apply (a : action) (s : screen) :
  isLoading (apply a s) = match a with SetIsLoading b => b | _ => isLoading s end.
Proof. now destruct a. Qed.

Lemma advance_closes (h : host) (p : prog unit) (s s' : screen) (t : option task) :
  closes (isLoading s) p ->
  advance h p s = (s', t) ->
  match t with
  | None => isLoading s' = false
  | Some x => task_ok (isLoading s') x
  end.
Proof.
  revert s. induction p as [x|e|a k IH|k IH|te k IH|X c k IH]; cbn; intros s Hp Hadv.
  - injection Hadv as <- <-. exact Hp.
  - injection Hadv as <- <-. exact Hp.
  - apply (IH (apply a s)); [|exact Hadv]. now rewrite isLoading_apply.
  - exact (IH _ s (Hp _) Hadv).
  - exact (IH _ s (Hp _) Hadv).
  - injection Hadv as <- <-. exact Hp.
Qed.

Ltac closes_cases :=
  repeat (cbn;
          match goal with
          | |- _ /\ _ => split
          | |- forall _, _ => intro
          | |- context [match ?x with _ => _ end] => destruct x
          end);
  try reflexivity.

Lemma sendToOCR_closes (base64 : string) : closes false (sendToOCR base64).
Proof.
  unfold sendToOCR, transmit, interpret, report, read_apiKey, await, await_or, lift.
  closes_cases.
Qed.

Lemma pickImage_closes (c : bool) : closes false (pickImage c).
Proof.
  unfold pickImage, detached, sendToOCR, transmit, interpret, report, read_apiKey,
    await, await_or, lift.
  closes_cases.
Qed.

Lemma button_disabled_while_loading (s : screen) :
  isLoading s = true -> button_disabled s = true.
Proof. unfold button_disabled. now intros ->. Qed.

Lemma mounted_is_settled (h : host) : settled_or_single (mounted h).
Proof.
  left. split; [reflexivity|].
  unfold mounted, mountEffect, read_apiKey. cbn.
  now destruct (truthy (apiKey_of (expoConfig h))).
Qed.

Lemma parked_is_settled (s : screen) (t : option task) :
  match t with
  | None => isLoading s = false
  | Some x => task_ok (isLoading s) x
  end ->
  settled_or_single {| ui := s; tasks := parked t |}.
Proof.
  destruct t as [x|]; intro H; [right; exists x|left]; cbn; auto.
Qed.

Lemma step_keeps_settled (h : host) (l l' : loop) :
  settled_or_single l -> step modal h l l' -> settled_or_single l'.
Proof.
  intros Hinv Hstep. destruct Hstep as [l s' t Hmay Hbutton Hadv
                                       |l before after X c k r s' t Htasks Hadv].
  - assert (Hidle : isLoading (ui l) = false).
    { unfold button_disabled in Hbutton. now apply orb_false_elim in Hbutton. }
    destruct Hinv as [[Hnil _]|(x & Hone & Hx)].
    + rewrite Hnil. apply parked_is_settled.
      apply (advance_closes h (onPress (ui l)) (ui l)); [|exact Hadv].
      rewrite Hidle. apply pickImage_closes.
    + exfalso. unfold modal, behind_modal in Hmay. rewrite Hone in Hmay. cbn in Hmay.
      destruct Hx as [Hx _]. rewrite Hx, Hidle in Hmay. discriminate Hmay.
  - destruct Hinv as [[Hnil _]|(x & Hone & Hx)].
    + rewrite Hnil in Htasks. now destruct before.
    + rewrite Hone in Htasks.
      destruct before as [|y before]; cbn in Htasks.
      2: { injection Htasks as _ Hrest. now destruct before. }
      injection Htasks as -> <-. cbn [app]. rewrite app_nil_r.
      apply parked_is_settled.
      apply (advance_closes h (k r) (ui l)); [|exact Hadv].
      destruct Hx as [_ Hx]. apply Hx.
Qed.

Lemma reachable_is_settled (h : host) (l : loop) :
  reachable modal h l -> settled_or_single l.
Proof.
  induction 1 as [|l l' _ IH Hstep]; [apply mounted_is_settled|].
  exact (step_keeps_settled h l l' IH Hstep).
Qed.

Lemma settled_gives_invariant (l : loop) : settled_or_single l -> loading_invariant l.
Proof.
  unfold loading_invariant.
  intros [[Hnil Hidle]|(x & Hone & Hflight & _)].
  - rewrite Hnil, Hidle. cbn. split; [|lia].
    split; [discriminate|]. now intros (t & [] & _).
  - rewrite Hone. cbn [filter In]. split.
    + split.
      * intro Hl. exists x. split; [now left|]. now rewrite Hflight.
      * intros (t & [<-|[]] & Ht). now rewrite <- Hflight.
    + destruct (in_flight x); cbn; lia.
Qed.

(** C9 does not hold as stated.  Nothing disables the button while a run
    waits for the permission prompt or the picker: two presses made before
    either run reaches [sendToOCR] leave two operations in flight at once. *)
Lemma two_transmissions_in_flight :
  exists l,
    reachable always configured_host l /\
    List.length (filter in_flight (tasks l)) = 2 /\
    ~ loading_invariant l.
Proof.
  eexists. split; [|split].
  - eapply reach_step; [eapply reach_step; [eapply reach_step; [eapply reach_step;
      [eapply reach_step; [eapply reach_step; [apply reach_mounted|]|]|]|]|]|].
    + eapply step_press; [exact I|reflexivity|reflexivity].
    + eapply step_press; [exact I|reflexivity|reflexivity].
    + eapply step_settle with (before := []) (r := allowed); reflexivity.
    + eapply step_settle with (before := [_]) (r := allowed); reflexivity.
    + eapply step_settle with (before := []) (r := Resolved (Selected [receipt]));
        reflexivity.
    + eapply step_settle with (before := [_]) (r := Resolved (Selected [receipt]));
        reflexivity.
  - reflexivity.
  - intros [_ H]. cbn in H. lia.
Qed.

(** C9, amended.  Suppose the button cannot be pressed while an invocation
    waits for the permission prompt or for the picker.  Then in every
    reachable state [isLoading] is true exactly when a transmit-and-interpret
    operation is in flight, at most one is in flight, and at most one
    invocation is suspended at all.  In any state the button is rendered
    disabled when [isLoading] is true. *)
Theorem loading_invariant_when_modal (h : host) (l : loop) :
  reachable modal h l ->
  loading_invariant l /\
  List.length (tasks l) <= 1 /\
  (isLoading (ui l) = true -> button_disabled (ui l) = true).
Proof.
  intro Hreach. apply reachable_is_settled in Hreach.
  split; [now apply settled_gives_invariant|].
  split; [|apply button_disabled_while_loading].
  destruct Hreach as [[-> _]|(x & -> & _)]; cbn; lia.
Qed.

Lemma loading_invariant_when_modal_witness :
  exists l,
    reachable modal configured_host l /\
    isLoading (ui l) = true /\
    List.length (filter in_flight (tasks l)) = 1 /\
    loading_invariant l.
Proof.
  assert (H : exists l, reachable modal configured_host l /\
                        isLoading (ui l) = true /\
                        List.length (filter in_flight (tasks l)) = 1).
  { eexists. split.
    - eapply reach_step; [eapply reach_step; [eapply reach_step; [apply reach_mounted|]|]|].
      + eapply step_press; reflexivity.
      + eapply step_settle with (before := []) (r := allowed); reflexivity.
      + eapply step_settle with (before := []) (r := Resolved (Selected [receipt]));
          reflexivity.
    - split; reflexivity. }
  destruct H as (l & Hreach & Hloading & Hone).
  exists l. split; [exact Hreach|]. split; [exact Hloading|]. split; [exact Hone|].
  exact (proj1 (loading_invariant_when_modal configured_host l Hreach)).
Defined.


(** * Further properties of the handlers *)

(** ** Exceptions while picking *)

(** X1.  [pickImage] never throws: whatever the platform calls do, and
    whatever happens in the transmission it starts, the handler returns. *)
Theorem pickImage_returns (w : world) (c : bool) (s : screen) :
  completed (run w (pickImage c) s) = Returned tt.
Proof.
  unfold pickImage. rewrite run_try_catch.
  match goal with
  | |- context [completed (run w ?p s)] => destruct (completed (run w p s)) as [[]|error]
  end; reflexivity.
Qed.

(** X2.  When the permission request or the picker rejects, or the picker
    reports a selection without any asset, the handler logs the error and
    shows the alert [选择图片时发生错误]; the state is unchanged and nothing is
    transmitted. *)
Theorem picking_failure_is_alerted (w : world) (s : screen) :
  (forall error,
      permission w = Rejected error ->
      run w (pickImage true) s =
      {| completed := Returned tt; final := s;
         events := [Called RequestMediaLibraryPermissions;
                    Did (ConsoleError "图片选择错误:" error);
                    Did (Alert "错误" "选择图片时发生错误")] |}) /\
  (forall p error,
      permission w = Resolved p ->
      granted p = true ->
      picker w pick_options = Rejected error ->
      run w (pickImage true) s =
      {| completed := Returned tt; final := s;
         events := [Called RequestMediaLibraryPermissions; Called picker_call;
                    Did (ConsoleError "图片选择错误:" error);
                    Did (Alert "错误" "选择图片时发生错误")] |}) /\
  (forall p,
      permission w = Resolved p ->
      granted p = true ->
      picker w pick_options = Resolved (Selected []) ->
      run w (pickImage true) s =
      {| completed := Returned tt; final := s;
         events := [Called RequestMediaLibraryPermissions; Called picker_call;
                    Did (ConsoleError "图片选择错误:"
                           (ErrorObject (typeErrorMessage (ambient w) (ReadOfNullish "uri"))));
                    Did (Alert "错误" "选择图片时发生错误")] |}).
Proof.
  split; [|split].
  - intros error Hp. unfold pickImage. cbn [negb].
    now rewrite run_try_catch, (run_await_rejected _ _ error) by exact Hp.
  - intros p error Hp Hg Hc. unfold pickImage. cbn [negb].
    rewrite run_try_catch, run_await_resolved with (x := p) by exact Hp.
    rewrite Hg. cbn [negb].
    now rewrite (run_await_rejected _ _ error) by exact Hc.
  - intros p Hp Hg Hc. now rewrite (run_pickImage_granted w s p _ Hp Hg Hc).
Qed.

Lemma picking_failure_is_alerted_witness :
  let locked := sample_world configured_host (Rejected (ErrorObject "no access"))
                  (Resolved Canceled) (Rejected NonError) (Rejected NonError) in
  let crashed := sample_world configured_host allowed (Rejected NonError)
                   (Rejected NonError) (Rejected NonError) in
  let empty := sample_world configured_host allowed (Resolved (Selected []))
                 (Rejected NonError) (Rejected NonError) in
  final (run locked (pickImage true) showing) = showing /\
  final (run crashed (pickImage true) showing) = showing /\
  final (run empty (pickImage true) showing) = showing.
Proof.
  intros locked crashed empty. split; [|split].
  - exact (f_equal final
             (proj1 (picking_failure_is_alerted locked showing)
                (ErrorObject "no access") eq_refl)).
  - exact (f_equal final
             (proj1 (proj2 (picking_failure_is_alerted crashed showing))
                {| granted := true |} NonError eq_refl eq_refl eq_refl)).
  - exact (f_equal final
             (proj2 (proj2 (picking_failure_is_alerted empty showing))
                {| granted := true |} eq_refl eq_refl eq_refl)).
Defined.

Lemma sendToOCR_launches_nothing (base64 : string) :
  only (fun e => launched e = None) (sendToOCR base64).
Proof.
  unfold sendToOCR. cbn [bind perform only]. split; [reflexivity|].
  apply only_finally; [|cbn; tauto].
  unfold transmit, interpret, report, read_apiKey.
  only_steps; cbn; try reflexivity; only_steps; reflexivity.
Qed.

(** X3.  The picker is opened only on a configured screen whose permission
    request resolved with [granted]; it is always opened with the same
    options (base64 requested, editing allowed, quality 1). *)
Theorem picker_needs_permission (w : world) (c : bool) (s : screen) (e : event)
    (options : picker_options) :
  In e (events (run w (pickImage c) s)) ->
  launched e = Some options ->
  c = true /\
  (exists p, permission w = Resolved p /\ granted p = true) /\
  options = {| want_base64 := true; allowsEditing := true; quality := 1 |}.
Proof.
  intros He Hl. destruct c.
  2: { no_such_event He Hl. }
  destruct (permission w) as [p|error] eqn:Hp.
  2: { unfold pickImage in He. cbn [negb] in He.
       rewrite run_try_catch, (run_await_rejected _ _ error) in He by exact Hp.
       no_such_event He Hl. }
  destruct (granted p) eqn:Hg.
  2: { unfold pickImage in He. cbn [negb] in He.
       rewrite run_try_catch, run_await_resolved with (x := p) in He by exact Hp.
       rewrite Hg in He. no_such_event He Hl. }
  split; [reflexivity|]. split; [now exists p|].
  assert (Hquiet : only (fun e => forall o, launched e = Some o -> o = pick_options)
                     (pickImage true)).
  { unfold pickImage. apply only_try_catch; [|intro; cbn; split; [discriminate|]; split;
                                               [discriminate|exact I]].
    cbn [negb].
    apply only_bind; [apply only_await; discriminate|]. intro q.
    destruct (negb (granted q)); [cbn; split; [discriminate|exact I]|].
    apply only_bind; [apply only_await; now intros o [= <-]|].
    intros [|assets]; [exact I|].
    apply only_bind; [destruct assets; cbn; tauto|]. intro a.
    cbn [bind perform only]. split; [discriminate|].
    destruct (encoded a); [|cbn; split; [discriminate|exact I]].
    apply only_try_catch; [|intro; exact I].
    apply (only_weaken (fun e => launched e = None));
      [intros e0 H0 o; rewrite H0; discriminate|].
    apply sendToOCR_launches_nothing. }
  apply (only_run _ w _ s) in Hquiet. rewrite Forall_forall in Hquiet.
  exact (Hquiet e He options Hl).
Qed.

Lemma picker_needs_permission_witness :
  let w := sample_world configured_host allowed (Resolved Canceled)
             (Rejected NonError) (Rejected NonError) in
  In (Called picker_call) (events (run w (pickImage true) ready)) /\
  launched (Called picker_call) = Some pick_options /\
  exists p, permission w = Resolved p /\ granted p = true.
Proof.
  intro w.
  assert (Hin : In (Called picker_call) (events (run w (pickImage true) ready))).
  { cbn. right. left. reflexivity. }
  split; [exact Hin|]. split; [reflexivity|].
  exact (proj1 (proj2 (picker_needs_permission w true ready (Called picker_call)
                         pick_options Hin eq_refl))).
Defined.

(** ** One request at most *)

Lemma requests_at_most_run {A : Type} (w : world) (p : prog A) (n : nat) (s : screen) :
  requests_at_most n p ->
  List.length (filter is_fetch (events (run w p s))) <= n.
Proof.
  revert n s. induction p as [x|e|b k IH|k IH|t k IH|X c k IH]; intros n s Hp.
  - cbn; lia.
  - cbn; lia.
  - cbn in *. now apply IH.
  - cbn in *. now apply IH.
  - cbn in *. now apply IH.
  - destruct c; cbn in *; try (now apply IH).
    destruct n as [|m]; [contradiction|]. apply le_n_S. now apply IH.
Qed.

Ltac all_paths :=
  repeat (cbn;
          match goal with
          | |- _ /\ _ => split
          | |- forall _, _ => intro
          | |- context [match ?x with _ => _ end] => destruct x
          end);
  try exact I.

Lemma pickImage_requests_once (c : bool) : requests_at_most 1 (pickImage c).
Proof.
  unfold pickImage, detached, sendToOCR, transmit, interpret, report, read_apiKey,
    await, await_or, lift.
  all_paths.
Qed.

(** X4.  A press leads to at most one request, and so does a call of
    [sendToOCR]: there is no retry, whichever way the request or the
    interpretation of its reply fails. *)
Theorem at_most_one_request (w : world) (s : screen) :
  (forall c, List.length (filter is_fetch (events (run w (pickImage c) s))) <= 1) /\
  (forall base64,
      List.length (filter is_fetch (events (run w (sendToOCR base64) s))) <= 1).
Proof.
  split.
  - intro c. apply requests_at_most_run, pickImage_requests_once.
  - intro base64. apply requests_at_most_run.
    unfold sendToOCR, transmit, interpret, report, read_apiKey, await, await_or, lift.
    all_paths.
Qed.

(** ** What a transmission leaves on the screen *)

Lemma truthy_differs (v : value) : truthy v = true -> differs_from_empty v = true.
Proof. destruct v; cbn; auto. Qed.

(** The [try] block returns only along the path of a success reply whose
    body parses and can be read. *)
Lemma transmit_returned (w : world) (base64 : string) (s : screen) (u : unit) :
  completed (run w (transmit base64) s) = Returned u ->
  exists key_text res data text,
    to_string (apiKey_of (expoConfig (ambient w))) = Normal key_text /\
    fetch w (ocr_request key_text base64) = Resolved res /\
    ok res = true /\
    json w res = Resolved data /\
    read_text data = Normal text /\
    ocrText (final (run w (transmit base64) s))
    = (if truthy text then text else VStr no_text_placeholder).
Proof.
  unfold transmit. rewrite run_read_apiKey.
  destruct (truthy (apiKey_of (expoConfig (ambient w)))) eqn:Hkey; cbn [negb];
    [|discriminate].
  rewrite run_perform_then.
  destruct (to_string (apiKey_of (expoConfig (ambient w)))) as [key_text|t] eqn:Htext.
  2: { rewrite (run_lift_abrupt _ _ t) by reflexivity. discriminate. }
  rewrite (run_lift_normal _ _ key_text) by reflexivity.
  destruct (fetch w (ocr_request key_text base64)) as [res|error] eqn:Hfetch.
  2: { rewrite (run_await_rejected _ _ error) by exact Hfetch. discriminate. }
  rewrite run_await_resolved with (x := res) by exact Hfetch.
  cbn [emit completed final apply].
  destruct (ok res) eqn:Hok.
  2: { destruct (run_interpret_failure_throws w res s Hok) as [m Hm].
       rewrite Hm. discriminate. }
  destruct (json w res) as [data|error] eqn:Hjson.
  2: { unfold interpret. rewrite Hok. cbn [negb].
       rewrite (run_await_rejected _ _ error) by exact Hjson. discriminate. }
  destruct (read_text data) as [text|t] eqn:Hread.
  2: { unfold interpret. rewrite Hok. cbn [negb].
       rewrite run_await_resolved with (x := data) by exact Hjson.
       rewrite (run_lift_abrupt _ _ t) by exact Hread. discriminate. }
  intros _. exists key_text, res, data, text.
  rewrite (run_interpret_success w res data text s Hok Hjson Hread).
  repeat split; assumption.
Qed.

(** X5.  After every run of [sendToOCR], [isLoading] is false and the
    result text is not the empty string.  It is a non-empty string (the text
    found, the placeholder or the description of the failure) except in one
    case: the reply had a success status and the [text] field of its body was
    a truthy value that is not a string, which is then stored as it is. *)
Theorem transmission_leaves_a_result (w : world) (base64 : string) (s : screen) :
  let s' := final (run w (sendToOCR base64) s) in
  isLoading s' = false /\
  differs_from_empty (ocrText s') = true /\
  ((exists t, ocrText s' = VStr t /\ t <> "") \/
   (exists key_text res data,
       to_string (apiKey_of (expoConfig (ambient w))) = Normal key_text /\
       fetch w (ocr_request key_text base64) = Resolved res /\
       ok res = true /\
       json w res = Resolved data /\
       read_text data = Normal (ocrText s') /\
       truthy (ocrText s') = true /\
       forall t, ocrText s' <> VStr t)).
Proof.
  intro s'.
  assert (Hloading : isLoading s' = false).
  { subst s'. rewrite run_sendToOCR.
    now destruct (completed (run w (transmit base64) (apply (SetIsLoading true) s))). }
  assert (Hcases :
            (exists t, ocrText s' = VStr t /\ t <> "") \/
            (exists key_text res data,
                to_string (apiKey_of (expoConfig (ambient w))) = Normal key_text /\
                fetch w (ocr_request key_text base64) = Resolved res /\
                ok res = true /\
                json w res = Resolved data /\
                read_text data = Normal (ocrText s') /\
                truthy (ocrText s') = true /\
                forall t, ocrText s' <> VStr t)).
  { subst s'. rewrite run_sendToOCR.
    destruct (completed (run w (transmit base64) (apply (SetIsLoading true) s)))
      as [u|error] eqn:Hc; cbn [final apply ocrText].
    - destruct (transmit_returned w base64 _ u Hc)
        as (key_text & res & data & text & Htext & Hfetch & Hok & Hjson & Hread & Hshown).
      cbn [apply] in Hshown. rewrite Hshown.
      destruct (truthy text) eqn:Htruthy.
      + destruct text as [| | | |t| |];
          try (right; exists key_text, res, data; repeat split; try assumption;
               intros t'; discriminate).
        left. exists t. split; [reflexivity|].
        intros ->. discriminate Htruthy.
      + left. eexists. split; [reflexivity|discriminate].
    - left. eexists. split; [reflexivity|discriminate]. }
  split; [exact Hloading|]. split; [|exact Hcases].
  destruct Hcases as [(t & -> & Ht)|(_ & _ & _ & _ & _ & _ & _ & _ & Htruthy & _)].
  - cbn. apply String.eqb_neq in Ht. now rewrite Ht.
  - now apply truthy_differs.
Qed.

(** X6.  A run of [sendToOCR] changes nothing but the result text and
    [isLoading]: the picture shown and the flag [apiConfigured] are as
    before. *)
Theorem transmission_keeps_picture_and_flag (w : world) (base64 : string) (s : screen) :
  final (run w (sendToOCR base64) s) =
  {| imageUri := imageUri s;
     ocrText := ocrText (final (run w (sendToOCR base64) s));
     isLoading := false;
     apiConfigured := apiConfigured s |}.
Proof.
  pose proof (run_frame imageUri pipeline_event w (sendToOCR base64) s) as Himage.
  pose proof (run_frame apiConfigured pipeline_event w (sendToOCR base64) s) as Hflag.
  assert (Hloading : isLoading (final (run w (sendToOCR base64) s)) = false).
  { rewrite run_sendToOCR.
    now destruct (completed (run w (transmit base64) (apply (SetIsLoading true) s))). }
  rewrite <- Himage, <- Hflag, <- Hloading.
  - now destruct (final (run w (sendToOCR base64) s)).
  - intros a s0 H; destruct a; cbn in *; tauto || reflexivity.
  - apply sendToOCR_pipeline_events.
  - intros a s0 H; destruct a; cbn in *; tauto || reflexivity.
  - apply sendToOCR_pipeline_events.
Qed.

(** ** The button after a run *)




(** ** The event loop without assumptions on the user *)

Lemma advance_frame {T : Type} (view : screen -> T) (P : event -> Prop) (h : host)
    (p : prog unit) (s s' : screen) (t : option task) :
  (forall a s0, P (Did a) -> view (apply a s0) = view s0) ->
  only P p ->
  advance h p s = (s', t) ->
  view s' = view s /\
  match t with
  | Some x => forall r, only P (resume x r)
  | None => True
  end.
Proof.
  intro Hframe. revert s.
  induction p as [x|e|b k IH|k IH|te k IH|X c k IH]; cbn; intros s Hp Hadv.
  - injection Hadv as <- <-. auto.
  - injection Hadv as <- <-. auto.
  - destruct Hp as [Hb Hk]. destruct (IH _ Hk Hadv) as [Hv Ht].
    split; [|exact Ht]. rewrite Hv. now apply Hframe.
  - destruct Hp as [_ Hk]. exact (IH _ s (Hk _) Hadv).
  - exact (IH _ s (Hp _) Hadv).
  - injection Hadv as <- <-. destruct Hp as [_ Hk]. split; [reflexivity|exact Hk].
Qed.

Lemma flag_frame (a : action) (s : screen) :
  is_flag_update (Did a) = false -> apiConfigured (apply a s) = apiConfigured s.
Proof. destruct a; cbn; intro H; discriminate H || reflexivity. Qed.

Lemma mounted_flag (h : host) :
  apiConfigured (ui (mounted h)) = truthy (apiKey_of (expoConfig h)).
Proof.
  unfold mounted, mountEffect, read_apiKey. cbn.
  now destruct (truthy (apiKey_of (expoConfig h))).
Qed.

Lemma in_replaced (before after : list task) (t : option task) (x : task) :
  In x (before ++ parked t ++ after) ->
  In x before \/ t = Some x \/ In x after.
Proof.
  rewrite !in_app_iff. intros [H|[H|H]]; auto.
  destruct t as [y|]; cbn in H; [destruct H as [<-|[]]; auto|destruct H].
Qed.

Lemma reachable_flag_is_fixed (may_press : loop -> Prop) (h : host) (l : loop) :
  reachable may_press h l -> flag_is_fixed h l.
Proof.
  induction 1 as [|l l' _ [Hflag Htasks] Hstep].
  - split; [apply mounted_flag|intros t []].
  - destruct Hstep as [l s' t _ _ Hadv|l before after X c k r s' t Hl Hadv].
    + destruct (advance_frame apiConfigured _ h _ _ _ _ flag_frame
                  (pickImage_keeps_flag _) Hadv) as [Hv Ht].
      split; cbn; [now rewrite Hv|].
      intros x Hx. apply in_app_or in Hx. destruct Hx as [Hx|Hx]; [now apply Htasks|].
      destruct t as [y|]; cbn in Hx; [destruct Hx as [<-|[]]; exact Ht|destruct Hx].
    + assert (Hk : only (fun e => is_flag_update e = false) (k r)).
      { apply (Htasks (Suspended c k)). rewrite Hl. apply in_or_app. right. now left. }
      destruct (advance_frame apiConfigured _ h _ _ _ _ flag_frame Hk Hadv) as [Hv Ht].
      split; cbn; [now rewrite Hv|].
      intros x Hx. apply in_replaced in Hx. destruct Hx as [Hx|[->|Hx]].
      * apply Htasks. rewrite Hl. apply in_or_app. now left.
      * exact Ht.
      * apply Htasks. rewrite Hl. apply in_or_app. right. now right.
Qed.

Lemma warning_shown (s : screen) :
  In WarningBanner (render s) <-> apiConfigured s = false.
Proof.
  unfold render. rewrite !in_app_iff.
  destruct (apiConfigured s), (isLoading s), (imageUri s) as [source|],
    (differs_from_empty (ocrText s));
    try destruct (String.eqb source ""); cbn; intuition discriminate.
Qed.

(** X8.  Whatever is pressed and however the calls settle, in every state
    the event loop reaches the flag [apiConfigured] has the value the mount
    effect gave it; so the warning banner is shown exactly when the host has
    no credential, for the whole life of the screen. *)
Theorem flag_is_settled_at_mount (may_press : loop -> Prop) (h : host) (l : loop) :
  reachable may_press h l ->
  apiConfigured (ui l) = truthy (apiKey_of (expoConfig h)) /\
  (In WarningBanner (render (ui l)) <-> truthy (apiKey_of (expoConfig h)) = false).
Proof.
  intro Hreach. destruct (reachable_flag_is_fixed may_press h l Hreach) as [Hflag _].
  split; [exact Hflag|]. now rewrite warning_shown, Hflag.
Qed.

Lemma flag_is_settled_at_mount_witness :
  exists l,
    reachable always configured_host l /\
    isLoading (ui l) = true /\
    apiConfigured (ui l) = true.
Proof.
  assert (H : exists l, reachable always configured_host l /\ isLoading (ui l) = true).
  { eexists. split.
    - eapply reach_step; [eapply reach_step; [eapply reach_step; [apply reach_mounted|]|]|].
      + eapply step_press; [exact I|reflexivity|reflexivity].
      + eapply step_settle with (before := []) (r := allowed); reflexivity.
      + eapply step_settle with (before := []) (r := Resolved (Selected [receipt]));
          reflexivity.
    - reflexivity. }
  destruct H as (l & Hreach & Hloading).
  exists l. split; [exact Hreach|]. split; [exact Hloading|].
  exact (proj1 (flag_is_settled_at_mount always configured_host l Hreach)).
Defined.

(** X9.  On a host without a credential the screen stays as it was mounted:
    the button is disabled, so no press is accepted, nothing is ever
    suspended and no state variable changes. *)
Theorem unconfigured_screen_is_inert (may_press : loop -> Prop) (h : host) (l : loop) :
  truthy (apiKey_of (expoConfig h)) = false ->
  reachable may_press h l ->
  l = mounted h /\ ui l = initial /\ tasks l = [] /\ button_disabled (ui l) = true.
Proof.
  intros Hkey Hreach.
  assert (Hm : ui (mounted h) = initial).
  { unfold mounted, mountEffect, read_apiKey. cbn. now rewrite Hkey. }
  induction Hreach as [|l l' _ IH Hstep].
  - rewrite Hm. repeat split.
  - destruct IH as (_ & Hui & Hnil & _). exfalso.
    destruct Hstep as [l s' t _ Hb _|l before after X c k r s' t Hl _].
    + rewrite Hui in Hb. discriminate Hb.
    + rewrite Hnil in Hl. now destruct before.
Qed.

Lemma unconfigured_screen_is_inert_witness :
  truthy (apiKey_of (expoConfig bare_host)) = false /\
  reachable always bare_host (mounted bare_host) /\
  ui (mounted bare_host) = initial.
Proof.
  split; [reflexivity|]. split; [apply reach_mounted|].
  exact (proj1 (proj2 (unconfigured_screen_is_inert always bare_host (mounted bare_host)
                         eq_refl (reach_mounted always bare_host)))).
Defined.

Lemma advance_tidy (h : host) (p : prog unit) (mine : bool) (s s' : screen)
    (t : option task) :
  closes mine p ->
  advance h p s = (s', t) ->
  let mine' := match t with Some x => in_flight x | None => false end in
  match t with
  | Some x => task_ok (in_flight x) x
  | None => True
  end /\
  (isLoading s' = mine' \/ (isLoading s' = isLoading s /\ mine' = mine)).
Proof.
  revert mine s.
  induction p as [x|e|a k IH|k IH|te k IH|X c k IH]; cbn; intros mine s Hp Hadv.
  - injection Hadv as <- <-. split; [exact I|]. right. now split.
  - injection Hadv as <- <-. split; [exact I|]. right. now split.
  - destruct (IH _ _ Hp Hadv) as [Ht [Hl|[Hl Hm]]]; split; auto.
    destruct a; cbn in Hl; auto.
    left. now rewrite Hl, Hm.
  - exact (IH _ _ s (Hp _) Hadv).
  - exact (IH _ _ s (Hp _) Hadv).
  - injection Hadv as <- <-. destruct Hp as [Hc Hk]. cbn.
    split; [|right; now split].
    unfold task_ok, in_flight. cbn. split; [reflexivity|]. now rewrite Hc.
Qed.

Lemma reachable_tasks_close (may_press : loop -> Prop) (h : host) (l : loop) :
  reachable may_press h l -> all_tasks_close l.
Proof.
  induction 1 as [|l l' _ [Hok Hon] Hstep].
  - split; [intros t []|]. intro Hl. exfalso.
    destruct (mounted_is_settled h) as [[_ Hidle]|(x & Hx & _)]; [|discriminate Hx].
    rewrite Hidle in Hl. discriminate Hl.
  - destruct Hstep as [l s' t _ Hb Hadv|l before after X c k r s' t Hl Hadv].
    + assert (Hidle : isLoading (ui l) = false).
      { unfold button_disabled in Hb. now apply orb_false_elim in Hb. }
      destruct (advance_tidy h _ false _ _ _ (pickImage_closes _) Hadv) as [Ht Hs].
      split; cbn.
      * intros x Hx. apply in_app_or in Hx. destruct Hx as [Hx|Hx]; [now apply Hok|].
        destruct t as [y|]; cbn in Hx; [destruct Hx as [<-|[]]; exact Ht|destruct Hx].
      * intro Hl'. destruct Hs as [Hs|[Hs _]]; [|congruence].
        destruct t as [y|]; [|congruence].
        exists y. split; [apply in_or_app; right; now left|congruence].
    + assert (Hin : In (Suspended c k) (tasks l)).
      { rewrite Hl. apply in_or_app. right. now left. }
      destruct (Hok _ Hin) as [_ Hk].
      destruct (advance_tidy h _ _ _ _ _ (Hk r) Hadv) as [Ht Hs].
      split; cbn.
      * intros x Hx. apply in_replaced in Hx. destruct Hx as [Hx|[->|Hx]].
        -- apply Hok. rewrite Hl. apply in_or_app. now left.
        -- exact Ht.
        -- apply Hok. rewrite Hl. apply in_or_app. right. now right.
      * intro Hl'.
        assert (Hnew : forall y, t = Some y -> in_flight y = true ->
                       exists z, In z (before ++ parked t ++ after) /\ in_flight z = true).
        { intros y -> Hy. exists y. split; [|exact Hy].
          apply in_or_app. right. now left. }
        destruct Hs as [Hs|[Hs Hm]].
        -- destruct t as [y|]; [|congruence]. apply (Hnew y eq_refl). congruence.
        -- rewrite Hs in Hl'. destruct (Hon Hl') as (z & Hz & Hflight).
           rewrite Hl in Hz. apply in_app_or in Hz. destruct Hz as [Hz|[<-|Hz]].
           ++ exists z. split; [apply in_or_app; now left|exact Hflight].
           ++ destruct t as [y|]; [|cbn in Hm; congruence].
              apply (Hnew y eq_refl). cbn in Hm. congruence.
           ++ exists z. split; [|exact Hflight].
              apply in_or_app. right. apply in_or_app. now right.
Qed.

(** X10.  Even when runs overlap, the loading indicator is never left on:
    in every state the event loop reaches, [isLoading] is true only while some
    invocation waits for the reply of [fetch] or for its body, and it is false
    whenever nothing is suspended. *)
Theorem indicator_only_while_in_flight (may_press : loop -> Prop) (h : host) (l : loop) :
  reachable may_press h l ->
  (isLoading (ui l) = true -> exists t, In t (tasks l) /\ in_flight t = true) /\
  (tasks l = [] -> isLoading (ui l) = false /\ ~ In LoadingIndicator (render (ui l))).
Proof.
  intro Hreach. destruct (reachable_tasks_close may_press h l Hreach) as [_ Hon].
  split; [exact Hon|].
  intro Hnil.
  assert (Hidle : isLoading (ui l) = false).
  { destruct (isLoading (ui l)); [|reflexivity].
    destruct (Hon eq_refl) as (t & Ht & _). rewrite Hnil in Ht. destruct Ht. }
  split; [exact Hidle|].
  unfold render. rewrite Hidle, !in_app_iff.
  destruct (negb (apiConfigured (ui l))), (imageUri (ui l)) as [source|],
    (differs_from_empty (ocrText (ui l)));
    try destruct (String.eqb source ""); cbn; intuition discriminate.
Qed.

Lemma indicator_only_while_in_flight_witness :
  exists l,
    reachable always configured_host l /\
    isLoading (ui l) = true /\
    exists t, In t (tasks l) /\ in_flight t = true.
Proof.
  assert (H : exists l, reachable always configured_host l /\ isLoading (ui l) = true).
  { eexists. split.
    - eapply reach_step; [eapply reach_step; [eapply reach_step; [apply reach_mounted|]|]|].
      + eapply step_press; [exact I|reflexivity|reflexivity].
      + eapply step_settle with (before := []) (r := allowed); reflexivity.
      + eapply step_settle with (before := []) (r := Resolved (Selected [receipt]));
          reflexivity.
    - reflexivity. }
  destruct H as (l & Hreach & Hloading).
  exists l. split; [exact Hreach|]. split; [exact Hloading|].
  exact (proj1 (indicator_only_while_in_flight always configured_host l Hreach) Hloading).
Defined.

(** X11.  While [isLoading] is true the button is disabled, so every step
    of the event loop is the settlement of a suspended invocation: no new
    invocation starts and the number of suspended invocations does not
    grow. *)
Theorem no_new_run_while_loading (may_press : loop -> Prop) (h : host) (l l' : loop) :
  isLoading (ui l) = true ->
  step may_press h l l' ->
  List.length (tasks l') <= List.length (tasks l) /\
  exists before after t t',
    tasks l = (before ++ t :: after)%list /\
    tasks l' = (before ++ parked t' ++ after)%list.
Proof.
  intros Hloading Hstep.
  destruct Hstep as [l s' t _ Hb _|l before after X c k r s' t Hl _].
  - unfold button_disabled in Hb. rewrite Hloading in Hb. discriminate Hb.
  - cbn. split.
    + rewrite Hl, !length_app. cbn. destruct t; cbn; lia.
    + exists before, after, (Suspended c k), t. now split.
Qed.

Lemma no_new_run_while_loading_witness :
  exists l',
    isLoading (ui sending) = true /\
    step always configured_host sending l' /\
    List.length (tasks l') <= List.length (tasks sending).
Proof.
  assert (H : exists l', step always configured_host sending l').
  { eexists.
    eapply step_settle with (before := []) (r := Rejected NonError); reflexivity. }
  destruct H as (l' & Hstep).
  exists l'. split; [reflexivity|]. split; [exact Hstep|].
  exact (proj1 (no_new_run_while_loading always configured_host sending l' eq_refl Hstep)).
Defined.

(** ** The mount effect *)

(** X12.  The mount effect only ever sets the flag: run on any state it
    leaves a flag that was true as it is, and running it a second time (as a
    development build does) changes nothing further. *)
Theorem mountEffect_is_idempotent (w : world) (s : screen) :
  let once := final (run w mountEffect s) in
  final (run w mountEffect once) = once /\
  (apiConfigured s = true -> once = s) /\
  completed (run w mountEffect s) = Returned tt.
Proof.
  unfold mountEffect. rewrite !run_read_apiKey.
  destruct (truthy (apiKey_of (expoConfig (ambient w)))); cbn.
  - repeat split. intro H. destruct s; cbn in *. now subst.
  - repeat split.
Qed.

Lemma mountEffect_is_idempotent_witness :
  let w := service success (Resolved (annotated "Hello")) in
  apiConfigured ready = true /\
  final (run w mountEffect ready) = ready.
Proof.
  intro w. split; [reflexivity|].
  exact (proj1 (proj2 (mountEffect_is_idempotent w ready)) eq_refl).
Defined.

(** ** A press that does not transmit *)

(** X13.  The result text and [isLoading] are written by [sendToOCR] alone:
    a run of [pickImage] in which [isLoading] is never set (refused
    configuration or permission, cancelled picker, selection without encoded
    data, exception while picking) issues no request and leaves the result
    text, [isLoading] and the flag as they were. *)
Theorem press_without_transmission (w : world) (c : bool) (s : screen) :
  let o := run w (pickImage c) s in
  (forall e, In e (events o) -> is_loading_event e = false) ->
  ocrText (final o) = ocrText s /\
  isLoading (final o) = isLoading s /\
  apiConfigured (final o) = apiConfigured s /\
  (forall e, In e (events o) -> requested e = None).
Proof.
  intros o Hquiet. subst o. destruct c.
  2: { cbn. repeat split. intros e [<-|[]]. reflexivity. }
  destruct (permission w) as [p|error] eqn:Hp.
  2: { unfold pickImage in *. cbn [negb] in *.
       rewrite run_try_catch, (run_await_rejected _ _ error) by exact Hp.
       cbn. repeat split. intros e He.
       repeat (destruct He as [<-|He]; [reflexivity|]). destruct He. }
  destruct (granted p) eqn:Hg.
  2: { unfold pickImage in *. cbn [negb] in *.
       rewrite run_try_catch, run_await_resolved with (x := p) by exact Hp.
       rewrite Hg. cbn. repeat split. intros e He.
       repeat (destruct He as [<-|He]; [reflexivity|]). destruct He. }
  destruct (picker w pick_options) as [choice|error] eqn:Hc.
  2: { unfold pickImage in *. cbn [negb] in *.
       rewrite run_try_catch, run_await_resolved with (x := p) by exact Hp.
       rewrite Hg. cbn [negb].
       rewrite (run_await_rejected _ _ error) by exact Hc.
       cbn. repeat split. intros e He.
       repeat (destruct He as [<-|He]; [reflexivity|]). destruct He. }
  rewrite (run_pickImage_granted w s p choice Hp Hg Hc) in *.
  destruct choice as [|[|first rest]].
  - cbn. repeat split. intros e He.
    repeat (destruct He as [<-|He]; [reflexivity|]). destruct He.
  - cbn. repeat split. intros e He.
    repeat (destruct He as [<-|He]; [reflexivity|]). destruct He.
  - destruct (encoded first) as [data|].
    + exfalso.
      assert (Hin : In (Did (SetIsLoading true))
                      (events (emit (Called RequestMediaLibraryPermissions)
                                 (emit (Called picker_call)
                                    (emit (Did (SetImageUri (uri first)))
                                       (run w (sendToOCR data)
                                          (apply (SetImageUri (uri first)) s))))))).
      { cbn [emit events]. do 3 right. rewrite run_sendToOCR.
        destruct (completed (run w (transmit data)
                               (apply (SetIsLoading true)
                                  (apply (SetImageUri (uri first)) s))));
          now left. }
      specialize (Hquiet _ Hin). discriminate Hquiet.
    + cbn. repeat split. intros e He.
      repeat (destruct He as [<-|He]; [reflexivity|]). destruct He.
Qed.

Lemma press_without_transmission_witness :
  let w := sample_world configured_host allowed (Resolved (Selected [bare_receipt]))
             (Resolved success) (Resolved (annotated "Hello")) in
  (forall e, In e (events (run w (pickImage true) showing)) -> is_loading_event e = false) /\
  ocrText (final (run w (pickImage true) showing)) = VStr "TOTAL 12".
Proof.
  intro w.
  assert (Hquiet : forall e, In e (events (run w (pickImage true) showing)) ->
                             is_loading_event e = false).
  { intros e He. cbn in He.
    repeat (destruct He as [<-|He]; [reflexivity|]). destruct He. }
  split; [exact Hquiet|].
  exact (proj1 (press_without_transmission w true showing Hquiet)).
Defined.

(** ** Remarks on the edges of the model *)

(** A screen mounted without a credential never gets past the gate, even if
    the handler is invoked although the button is rendered disabled. *)
Remark unconfigured_session (w : world) :
  truthy (apiKey_of (expoConfig (ambient w))) = false ->
  events (session w) =
    [ReadConfig;
     Did (ConsoleWarn "API密钥未配置，OCR功能将不可用");
     Did (Alert "配置错误" "API密钥未配置，请先设置app.config.js和.env文件")].
Proof.
  intro H. unfold session, mountEffect. rewrite run_read_apiKey, H. reflexivity.
Qed.

(** A body that parses to [null] is read with [data.responses], which
    throws: the run goes through the [catch] block. *)
Remark null_body_on_success :
  surfaced (run (service success (Resolved VNull)) (sendToOCR "QUJD") ready)
    "Cannot read property 'responses' of null".
Proof. unfold surfaced. cbn. repeat split; tauto. Qed.

Remark null_body_on_failure :
  surfaced (run (service bad_request (Resolved VNull)) (sendToOCR "QUJD") ready)
    "Cannot read property 'error' of null".
Proof. unfold surfaced. cbn. repeat split; tauto. Qed.

(** The worked examples of section 8 of the specification. *)
Example hello_is_shown_verbatim :
  ocrText (final (run (service success (Resolved (annotated "Hello")))
                    (onPress ready) ready)) = VStr "Hello".
Proof. reflexivity. Qed.

Example no_annotation_gives_placeholder :
  ocrText (final (run (service success (Resolved (VObj [("responses", VArr [VObj []])])))
                    (onPress ready) ready)) = VStr no_text_placeholder.
Proof. reflexivity. Qed.

Example unparseable_500_gives_status_text :
  ocrText (final (run (service server_error (Rejected (ErrorObject "Unexpected token <")))
                    (onPress ready) ready))
  = VStr "识别失败: API错误 (500): Internal Server Error".
Proof. reflexivity. Qed.

Example to_string_joins_arrays :
  to_string (VArr [VNum (-12); VNull; VStr "未"; VObj []]) = Normal "-12,,未,[object Object]".
Proof. reflexivity. Qed.
